(** * word-guess-game: the frequency ranker and the guessing game of main.py

    A shallow embedding of [make_dict], of the first-20 report of
    [preprocess] and of [guessing_game], with the properties the
    specification states about them.

    Python strings are modelled as [string] over the ASCII range, Python
    ints as [nat] (occurrence counts, which only grow from 0) or [Z] (the
    score), and a Python [dict] as an association list in insertion order,
    which is the order a dict iterates in. *)

From Stdlib Require Import ZArith Ascii String.
From stdpp Require Import base decidable list strings sorting.

Local Open Scope string_scope.
Local Open Scope list_scope.
Local Open Scope nat_scope.

(** ** Exceptions the modelled code can raise *)

Inductive exn :=
  | IndexError.

Global Instance exn_eq_dec : EqDecision exn.
Proof. solve_decision. Defined.

(** * The frequency ranker: [make_dict] *)

(** ** A dict as an insertion-ordered association list *)

Abbreviation dict := (list (string * nat)).

Definition keys (d : dict) : list string := d.*1.
Definition values (d : dict) : list nat := d.*2.

(** [k in d] and [d[k]] *)
Fixpoint dict_get (d : dict) (k : string) : option nat :=
  match d with
  | [] => None
  | (k', v) :: d' => if decide (k = k') then Some v else dict_get d' k
  end.

(** [d[k] = v]: an existing key keeps its position, a new key goes last. *)
Fixpoint dict_set (d : dict) (k : string) (v : nat) : dict :=
  match d with
  | [] => [(k, v)]
  | (k', v') :: d' =>
      if decide (k = k') then (k', v) :: d' else (k', v') :: dict_set d' k v
  end.

(** ** [np.argsort]

    numpy is not part of the repository.  Its [argsort] is taken through
    its contract: the result is a permutation of the indices of the input
    that lists the values in ascending order.  The default [kind] promises
    nothing about the order of equal values. *)

Class ArgSort := {
  argsort : list nat → list nat;
  argsort_perm vs : argsort vs ≡ₚ seq 0 (length vs);
  argsort_sorted vs :
    StronglySorted le ((λ i, default 0 (vs !! i)) <$> argsort vs)
}.

(** ** Lines 131-140: seeding and counting *)

(** [for noun in noun_list: noun_dict[noun] = 0] *)
Definition seed_nouns (noun_list : list string) : dict :=
  foldl (λ d noun, dict_set d noun 0) [] noun_list.

(** [for token in tokens: if token in noun_dict: noun_dict[token] += 1] *)
Definition count_tokens (d : dict) (tokens : list string) : dict :=
  foldl (λ d token,
           match dict_get d token with
           | Some c => dict_set d token (c + 1)
           | None => d
           end) d tokens.

Definition count_nouns (tokens noun_list : list string) : dict :=
  count_tokens (seed_nouns noun_list) tokens.

(** ** Lines 143-144: ranking

    [list(...)[i]] raises IndexError when [i] is out of range, hence the
    [option]; the comprehension inserts the pairs in the order of
    [sorted_value_index]. *)

Definition sorted_value_index `{A : ArgSort} (d : dict) : list nat :=
  reverse (argsort (values d)).

Definition rebuild (d : dict) (idx : list nat) : option dict :=
  foldl (λ acc i,
           acc ← acc;
           k ← keys d !! i;
           v ← values d !! i;
           Some (dict_set acc k v)) (Some []) idx.

Definition sort_dict `{A : ArgSort} (d : dict) : option dict :=
  rebuild d (sorted_value_index d).

(** ** Lines 147-150: the 50 most common nouns *)

Definition make_dict `{A : ArgSort} (tokens noun_list : list string)
  : option (list string) :=
  d ← sort_dict (count_nouns tokens noun_list);
  Some (take 50 (keys d)).

(** ** Two argsorts that meet the contract

    The contract leaves the order of equal values open.  [stable_argsort]
    lists the indices in ascending order by (value, index), equal values
    by ascending index; [reversed_ties_argsort] lists equal values by
    descending index.  They are instances to run the ranker on examples
    and to show what the contract allows: numpy's default sort is neither
    of them. *)

Definition lex_le (vs : list nat) (i j : nat) : Prop :=
  default 0 (vs !! i) < default 0 (vs !! j) ∨
  (default 0 (vs !! i) = default 0 (vs !! j) ∧ i ≤ j).

Global Instance lex_le_dec vs i j : Decision (lex_le vs i j).
Proof. unfold lex_le. apply _. Defined.

Global Instance lex_le_total vs : Total (lex_le vs).
Proof. intros i j. unfold lex_le. lia. Qed.

Global Instance lex_le_trans vs : Transitive (lex_le vs).
Proof. intros i j k. unfold lex_le. lia. Qed.

Definition stable_argsort_fun (vs : list nat) : list nat :=
  merge_sort (lex_le vs) (seq 0 (length vs)).

Definition stable_argsort : ArgSort.
Proof.
  refine {| argsort := stable_argsort_fun |}.
  - intros vs. apply merge_sort_Permutation.
  - intros vs.
    assert (Hlex : StronglySorted (lex_le vs) (stable_argsort_fun vs))
      by (apply StronglySorted_merge_sort; apply _).
    induction Hlex as [|i l Hl IH Hi]; simpl; constructor; [done|].
    apply Forall_fmap. eapply Forall_impl; [exact Hi|].
    intros j Hj. unfold lex_le in Hj. simpl. lia.
Defined.

Definition lex_ge (vs : list nat) (i j : nat) : Prop :=
  default 0 (vs !! i) < default 0 (vs !! j) ∨
  (default 0 (vs !! i) = default 0 (vs !! j) ∧ j ≤ i).

Global Instance lex_ge_dec vs i j : Decision (lex_ge vs i j).
Proof. unfold lex_ge. apply _. Defined.

Global Instance lex_ge_total vs : Total (lex_ge vs).
Proof. intros i j. unfold lex_ge. lia. Qed.

Global Instance lex_ge_trans vs : Transitive (lex_ge vs).
Proof. intros i j k. unfold lex_ge. lia. Qed.

Definition reversed_ties_argsort : ArgSort.
Proof.
  refine {| argsort := λ vs, merge_sort (lex_ge vs) (seq 0 (length vs)) |}.
  - intros vs. apply merge_sort_Permutation.
  - intros vs.
    assert (Hlex : StronglySorted (lex_ge vs)
                     (merge_sort (lex_ge vs) (seq 0 (length vs))))
      by (apply StronglySorted_merge_sort; apply _).
    induction Hlex as [|i l Hl IH Hi]; simpl; constructor; [done|].
    apply Forall_fmap. eapply Forall_impl; [exact Hi|].
    intros j Hj. unfold lex_ge in Hj. simpl. lia.
Defined.

(** * The first-20 report of [preprocess] (lines 104-112) *)

(** [for i in range(20): print("Lemma :", tags_list[i][0], "Tag :",
    tags_list[i][1])]: the pairs printed, and the exception that ended
    the loop, if any. *)
Fixpoint report_loop (tags_list : list (string * string)) (indices : list nat)
  : list (string * string) * option exn :=
  match indices with
  | [] => ([], None)
  | i :: rest =>
      match tags_list !! i with
      | None => ([], Some IndexError)
      | Some entry =>
          let '(printed, e) := report_loop tags_list rest in
          (entry :: printed, e)
      end
  end.

Definition report_first_20 (tags_list : list (string * string))
  : list (string * string) * option exn :=
  report_loop tags_list (seq 0 20).

(** Lines 109-112: the lemmas tagged "NN", in the order of [tags_list]. *)
Definition extract_nouns (tags_list : list (string * string)) : list string :=
  (filter (λ entry, entry.2 = "NN") tags_list).*1.

(** The part of [preprocess] after tagging: the report, then the noun
    list, which is not reached when the report raises. *)
Definition report_and_extract (tags_list : list (string * string))
  : list (string * string) * (exn + list string) :=
  match report_first_20 tags_list with
  | (printed, Some e) => (printed, inl e)
  | (printed, None) => (printed, inr (extract_nouns tags_list))
  end.

(** * The guessing game: [guessing_game] (lines 153-216) *)

(** ** Strings *)

Definition is_upper (c : ascii) : bool :=
  (65 <=? nat_of_ascii c) && (nat_of_ascii c <=? 90).

Definition is_lower (c : ascii) : bool :=
  (97 <=? nat_of_ascii c) && (nat_of_ascii c <=? 122).

Definition lower_char (c : ascii) : ascii :=
  if is_upper c then ascii_of_nat (nat_of_ascii c + 32) else c.

(** [s.lower()] *)
Fixpoint lower (s : string) : string :=
  match s with
  | EmptyString => EmptyString
  | String c s' => String (lower_char c) (lower s')
  end.

(** [s.isalpha()]: at least one character, and all of them letters. *)
Fixpoint all_alpha (s : string) : bool :=
  match s with
  | EmptyString => true
  | String c s' => (is_upper c || is_lower c) && all_alpha s'
  end.

Definition isalpha (s : string) : bool :=
  match s with
  | EmptyString => false
  | _ => all_alpha s
  end.

(** [len(s)] *)
Definition len (s : string) : nat := String.length s.

(** [list(word)]: the one-character strings of [word]. *)
Fixpoint letters (s : string) : list string :=
  match s with
  | EmptyString => []
  | String c s' => String c EmptyString :: letters s'
  end.

(** ** State *)

(** The variables of one round (lines 164-169). *)
Record round := Round {
  word : string;
  word_letters : list string;
  guessed_letters : list string;
  hidden_word : list string
}.

Global Instance round_eq_dec : EqDecision round.
Proof. solve_decision. Defined.

(** What the program writes to the console, by source line. *)
Inductive event :=
  | PrintLetsPlay                        (* 160 *)
  | PrintHidden (hidden : list string)   (* 173, 204 *)
  | PromptGuess                          (* 175 *)
  | PrintThanks                          (* 178, 216 *)
  | PrintInvalid                         (* 183 *)
  | PrintAlready                         (* 186 *)
  | PrintRight (score : Z)               (* 197 *)
  | PrintSorry (score : Z)               (* 200 *)
  | PrintSolved                          (* 205 *)
  | PrintRanOut (w : string)             (* 207 *)
  | PrintCurrent (score : Z)             (* 209 *)
  | PromptAgain.                         (* 212 *)

Global Instance event_eq_dec : EqDecision event.
Proof. solve_decision. Defined.

(** How the session ended: [return] at line 179, [break] at line 214, or
    the guard of line 163 failing. *)
Inductive ending :=
  | Quit
  | Declined
  | ScoreZero.

Global Instance ending_eq_dec : EqDecision ending.
Proof. solve_decision. Defined.

(** The program is either blocked in one of its two [input] calls or has
    stopped.  [k] counts the calls of [random.choice] made so far. *)
Inductive config :=
  | NeedGuess (total_score : Z) (r : round) (k : nat)   (* in input(), 175 *)
  | NeedAgain (total_score : Z) (r : round) (k : nat)   (* in input(), 212 *)
  | Finished (e : ending) (total_score : Z) (r : option round) (k : nat)
  | Raised (e : exn) (total_score : Z).

Global Instance config_eq_dec : EqDecision config.
Proof. solve_decision. Defined.

Definition score_of (c : config) : Z :=
  match c with
  | NeedGuess s _ _ | NeedAgain s _ _ | Finished _ s _ _ | Raised _ s => s
  end.

(** The number of rounds started so far. *)
Definition rounds_started (c : config) : option nat :=
  match c with
  | NeedGuess _ _ k | NeedAgain _ _ k | Finished _ _ _ k => Some k
  | Raised _ _ => None
  end.

Definition round_of (c : config) : option round :=
  match c with
  | NeedGuess _ r _ | NeedAgain _ r _ => Some r
  | Finished _ _ r _ => r
  | Raised _ _ => None
  end.

(** The outcome of a round as line 203 decides it. *)
Inductive round_outcome :=
  | Solved
  | Exhausted.

Definition outcome_of (r : round) : round_outcome :=
  if decide (hidden_word r = word_letters r) then Solved else Exhausted.

(** ** The code between two inputs *)

Definition emit (evs : list event) (res : config * list event)
  : config * list event :=
  (res.1, evs ++ res.2).

(** [random.choice(seq)] on the draw [r]: IndexError on an empty sequence. *)
Definition random_choice (r : nat) (seq : list string) : option string :=
  match seq with
  | [] => None
  | _ => seq !! (r mod length seq)
  end.

(** Lines 167-169. *)
Definition new_round (w : string) : round :=
  {| word := w;
     word_letters := letters w;
     guessed_letters := [];
     hidden_word := (λ _, "_ ") <$> letters w |}.

(** [l[i] = x]: IndexError out of range. *)
Definition setitem (l : list string) (i : nat) (x : string)
  : option (list string) :=
  if decide (i < length l) then Some (<[i:=x]> l) else None.

(** Lines 193-195. *)
Definition reveal (wl hidden : list string) (guess : string)
  : option (list string) :=
  foldl (λ acc i,
           h ← acc;
           if decide (wl !! i = Some guess) then setitem h i guess
           else Some h) (Some hidden) (seq 0 (length wl)).

(** The guard of line 171. *)
Definition loop_guard (s : Z) (r : round) : bool :=
  bool_decide (hidden_word r ≠ word_letters r) && bool_decide (0 < s)%Z.

(** Lines 203-216, reached when the guard of line 171 fails: with a
    positive score the program blocks at line 212; otherwise the guard of
    line 163 fails as well and line 216 ends the session. *)
Definition post_round (s : Z) (r : round) (k : nat) : config * list event :=
  let verdict :=
    if decide (hidden_word r = word_letters r)
    then [PrintHidden (hidden_word r); PrintSolved]
    else [PrintRanOut (word r)] in
  if decide (0 < s)%Z
  then (NeedAgain s r k, verdict ++ [PrintCurrent s; PromptAgain])
  else (Finished ScoreZero s (Some r) k, verdict ++ [PrintCurrent s; PrintThanks]).

(** Line 171, then lines 173-175 or the code after the loop. *)
Definition inner_head (s : Z) (r : round) (k : nat) : config * list event :=
  if loop_guard s r
  then (NeedGuess s r k, [PrintHidden (hidden_word r); PromptGuess])
  else post_round s r k.

(** Lines 163-169: the guard of the outer loop and the start of a round.
    [prev] is the round that just ended, if any. *)
Definition outer_head (words : list string) (rand : nat → nat)
    (s : Z) (prev : option round) (k : nat) : config * list event :=
  if decide (0 < s)%Z then
    match random_choice (rand k) words with
    | None => (Raised IndexError s, [])
    | Some w => inner_head s (new_round w) (S k)
    end
  else (Finished ScoreZero s prev k, [PrintThanks]).

(** Lines 175-200: one answer to the prompt of line 175. *)
Definition guess_step (s : Z) (r : round) (k : nat) (line : string)
  : config * list event :=
  let guess := lower line in
  if decide (guess = "!") then (Finished Quit s (Some r) k, [PrintThanks])
  else if negb (len guess =? 1) || negb (isalpha guess) then
    emit [PrintInvalid] (inner_head s r k)
  else if decide (guess ∈ guessed_letters r) then
    emit [PrintAlready] (inner_head s r k)
  else
    let guessed := guessed_letters r ++ [guess] in
    if decide (guess ∈ word_letters r) then
      match reveal (word_letters r) (hidden_word r) guess with
      | None => (Raised IndexError s, [])
      | Some hidden =>
          let s' := (s + 1)%Z in
          emit [PrintRight s']
            (inner_head s' (Round (word r) (word_letters r) guessed hidden) k)
      end
    else
      let s' := (s - 1)%Z in
      emit [PrintSorry s']
        (inner_head s' (Round (word r) (word_letters r) guessed (hidden_word r)) k).

(** Lines 212-214: one answer to the prompt of line 212. *)
Definition again_step (words : list string) (rand : nat → nat)
    (s : Z) (r : round) (k : nat) (line : string) : config * list event :=
  if decide (lower line ≠ "y") then (Finished Declined s (Some r) k, [PrintThanks])
  else outer_head words rand s (Some r) k.

(** ** The session *)

Section Session.
Variable words : list string.   (* most_common_words *)
Variable rand : nat → nat.      (* the draws of random.choice *)

(** The program consumes one line of input; a stopped program reads
    nothing. *)
Definition step (c : config) (line : string) : config * list event :=
  match c with
  | NeedGuess s r k => guess_step s r k line
  | NeedAgain s r k => again_step words rand s r k line
  | Finished _ _ _ _ | Raised _ _ => (c, [])
  end.

Fixpoint run (c : config) (inputs : list string) : config * list event :=
  match inputs with
  | [] => (c, [])
  | line :: rest => let '(c', evs) := step c line in emit evs (run c' rest)
  end.

(** Lines 160-163. *)
Definition start : config * list event :=
  emit [PrintLetsPlay] (outer_head words rand 5 None 0).

(** [guessing_game(most_common_words)] on the input lines [inputs]. *)
Definition guessing_game (inputs : list string) : config * list event :=
  emit start.2 (run start.1 inputs).

Definition reachable (c : config) : Prop :=
  ∃ inputs, (guessing_game inputs).1 = c.
End Session.

(** The scores announced after the guesses, from [init] on. *)
Definition score_path (init : Z) (evs : list event) : list Z :=
  init :: omap (λ e, match e with
                     | PrintRight s | PrintSorry s => Some s
                     | _ => None
                     end) evs.

(** ** Vocabulary of the statements *)

(** The number of tokens equal to [k]. *)
Definition occurrences (k : string) (tokens : list string) : nat :=
  length (filter (λ t, t = k) tokens).

(** [k1] stands before [k2] in the ranked output. *)
Definition ranked_before (out : list string) (k1 k2 : string) : Prop :=
  ∃ p q, p < q ∧ out !! p = Some k1 ∧ out !! q = Some k2.

(** [k1] was inserted into the dict before [k2]. *)
Definition inserted_before (d : dict) (k1 k2 : string) : Prop :=
  ∃ i j, i < j ∧ keys d !! i = Some k1 ∧ keys d !! j = Some k2.

Definition descending_counts (d : dict) (out : list string) : Prop :=
  ∀ k1 k2, ranked_before out k1 k2 →
    ∃ c1 c2, dict_get d k1 = Some c1 ∧ dict_get d k2 = Some c2 ∧ c2 ≤ c1.

Definition ties_in_insertion_order (d : dict) (out : list string) : Prop :=
  ∀ k1 k2, ranked_before out k1 k2 → dict_get d k1 = dict_get d k2 →
    inserted_before d k1 k2.

(** [i] stands before [j] in a list of indices. *)
Definition listed_before (l : list nat) (i j : nat) : Prop :=
  ∃ p q, p < q ∧ l !! p = Some i ∧ l !! q = Some j.

(** A position of the mask that shows a letter. *)
Definition revealed (r : round) (i : nat) : Prop :=
  ∃ x, hidden_word r !! i = Some x ∧ x ≠ "_ ".

(** A guess the validation of lines 182-187 rejects. *)
Definition rejected (r : round) (guess : string) : Prop :=
  len guess ≠ 1 ∨ isalpha guess = false ∨ guess ∈ guessed_letters r.

(** A guess that passes the validation. *)
Definition fresh_letter (r : round) (guess : string) : Prop :=
  len guess = 1 ∧ isalpha guess = true ∧ guess ∉ guessed_letters r.

Definition awaits_input (c : config) : Prop :=
  match c with
  | NeedGuess _ _ _ | NeedAgain _ _ _ => True
  | _ => False
  end.

(** Every letter the mask [r] shows, the mask [r'] shows as well. *)
Definition mask_grows (r r' : round) : Prop :=
  ∀ i, revealed r i → hidden_word r' !! i = hidden_word r !! i.

(** ** Invariants of the session *)

(** The round was started on [word r], and every position of the mask
    holds the placeholder or the letter of the word at that position. *)
Definition round_ok (r : round) : Prop :=
  word_letters r = letters (word r) ∧
  Forall2 (λ h w, h = "_ " ∨ h = w) (hidden_word r) (word_letters r).

(** What holds when line 171 is reached. *)
Definition at_loop_head (s : Z) (r : round) : Prop :=
  (0 ≤ s)%Z ∧ round_ok r ∧ (hidden_word r = word_letters r → (0 < s)%Z).

(** What holds of every configuration a session on [words] reaches. *)
Definition inv (words : list string) (c : config) : Prop :=
  match c with
  | NeedGuess s r _ =>
      words ≠ [] ∧ (0 < s)%Z ∧ round_ok r ∧ hidden_word r ≠ word_letters r
  | NeedAgain s r _ =>
      words ≠ [] ∧ (0 < s)%Z ∧ round_ok r ∧ hidden_word r = word_letters r
  | Finished Quit s (Some r) _ =>
      (0 < s)%Z ∧ round_ok r ∧ hidden_word r ≠ word_letters r
  | Finished Declined s (Some r) _ =>
      (0 < s)%Z ∧ round_ok r ∧ hidden_word r = word_letters r
  | Finished ScoreZero s (Some r) _ =>
      s = 0%Z ∧ round_ok r ∧ hidden_word r ≠ word_letters r
  | Finished _ _ None _ => False
  | Raised _ s => words = [] ∧ s = 5%Z
  end.

(** ** Vocabulary of further statements about the game *)

Definition is_hit (e : event) : bool :=
  match e with PrintRight _ => true | _ => false end.

Definition is_miss (e : event) : bool :=
  match e with PrintSorry _ => true | _ => false end.

Definition count_events (p : event → bool) (evs : list event) : Z :=
  Z.of_nat (length (filter (λ e, p e = true) evs)).

(** The mask that shows exactly the letters of [guessed]. *)
Definition mask_of (wl guessed : list string) : list string :=
  (λ w, if decide (w ∈ guessed) then w else "_ ") <$> wl.

(** What the validation of lines 182-187 lets through is a single
    lower-case letter. *)
Definition valid_guess (g : string) : Prop :=
  len g = 1 ∧ isalpha g = true ∧ lower g = g.

Definition round_facts (words : list string) (r : round) : Prop :=
  word r ∈ words
  ∧ word_letters r = letters (word r)
  ∧ NoDup (guessed_letters r)
  ∧ Forall valid_guess (guessed_letters r)
  ∧ hidden_word r = mask_of (word_letters r) (guessed_letters r).

Definition inv_round_facts (words : list string) (c : config) : Prop :=
  match round_of c with
  | Some r => round_facts words r
  | None => True
  end.

(** The letters of the word that are still to be guessed, each once. *)
Definition missing_letters (r : round) : list string :=
  filter (λ w, w ∉ guessed_letters r) (remove_dups (word_letters r)).

(** * The rest of the program: [file_check], [lexi_div], [preprocess], [main] *)

(** ** Failures and console output *)

(** How a run of the program can fail. *)
Inductive failure :=
  | SystemExit (code : nat)   (* exit(1), lines 29 and 37 *)
  | AttributeError            (* None.lower(), line 59 *)
  | ZeroDivisionError         (* line 66 *)
  | OSError                   (* open or read failing on a file that exists *)
  | Uncaught (e : exn).       (* IndexError, lines 106, 144, 164 and 195 *)

(** What the program prints, by source line.  Line 67 prints the quotient
    of the two numbers, rounded to two places. *)
Inductive message :=
  | MsgUsage                                   (* 28 *)
  | MsgEmptyFile                               (* 36 *)
  | MsgFileNotFound                            (* 41 *)
  | MsgLexicalDiversity (unique total : nat)   (* 67 *)
  | MsgLemmaTag (entry : string * string)      (* 106 *)
  | MsgNumTokens (n : nat)                     (* 114 *)
  | MsgNumNouns (n : nat)                      (* 115 *)
  | MsgMostCommon (ws : list string)           (* 148 *)
  | MsgGame (e : event).                       (* 160-216 *)

(** A computation that prints and then fails or returns. *)
Definition io (A : Type) : Type := list message * (failure + A).

Global Instance io_ret : MRet io := λ A a, ([], inr a).

Global Instance io_bind : MBind io := λ A B f m,
  match m with
  | (out, inl e) => (out, inl e)
  | (out, inr a) => let '(out', res) := f a in (out ++ out', res)
  end.

(** ** [file_check] (lines 15-41) *)

(** What [open] and [read] find under a path. *)
Inductive file_state :=
  | Missing
  | Unreadable
  | Text (content : string).

(** [None] is Python's [None], returned when the end of the function is
    reached after the handler of line 40. *)
Definition file_check (argv : list string) (fs : string → file_state)
  : io (option string) :=
  if decide (length argv ≠ 2) then ([MsgUsage], inl (SystemExit 1))
  else
    match argv !! 1 with
    | None => ([], inl (Uncaught IndexError))
    | Some path =>
        match fs path with
        | Missing => ([MsgFileNotFound], inr None)
        | Unreadable => ([], inl OSError)
        | Text raw_text =>
            if decide (len raw_text = 0)
            then ([MsgEmptyFile], inl (SystemExit 1))
            else ([], inr (Some raw_text))
        end
    end.

(** ** The collaborators

    NLTK is not part of the repository: [word_tokenize], the stop word
    list, the lemmatizer and [pos_tag] are taken as they are, [pos_tag]
    with the one fact that it returns its words, in order, each with a
    tag.  [set_list l] is [list(set(l))]: the elements of [l], each once,
    in the order the set happens to iterate. *)

Class Toolkit := {
  word_tokenize : string → list string;
  stopWords : list string;
  lemmatize : string → string;
  pos_tag : list string → list (string * string);
  pos_tag_words ws : (pos_tag ws).*1 = ws
}.

Class SetOrder := {
  set_list : list string → list string;
  set_list_NoDup l : NoDup (set_list l);
  set_list_elem l x : x ∈ set_list l ↔ x ∈ l
}.

(** ** [lexi_div] (lines 44-69) *)

Definition lexi_div `{T : Toolkit} (raw_text : option string) : io (list string) :=
  match raw_text with
  | None => ([], inl AttributeError)
  | Some text =>
      let tokens := word_tokenize (lower text) in
      let unique_tokens := remove_dups tokens in
      if decide (length tokens = 0) then ([], inl ZeroDivisionError)
      else ([MsgLexicalDiversity (length unique_tokens) (length tokens)],
            inr tokens)
  end.

(** ** [preprocess] (lines 72-117) *)

(** Lines 88 and 94. *)
Definition filter_tokens `{T : Toolkit} (raw_tokens : list string) : list string :=
  let alpha_tokens :=
    filter (λ token, isalpha token = true ∧ 5 < len token) raw_tokens in
  filter (λ token, token ∉ stopWords) alpha_tokens.

(** Lines 96-102. *)
Definition tag_lemmas `{T : Toolkit} `{S : SetOrder} (tokens : list string)
  : list (string * string) :=
  let lemmas := lemmatize <$> tokens in
  let unique_lemmas := set_list lemmas in
  pos_tag unique_lemmas.

Definition preprocess `{T : Toolkit} `{S : SetOrder} (raw_text : option string)
  : io (list string * list string) :=
  raw_tokens ← lexi_div raw_text;
  let tokens := filter_tokens raw_tokens in
  let tags_list := tag_lemmas tokens in
  match report_first_20 tags_list with
  | (printed, Some e) => (MsgLemmaTag <$> printed, inl (Uncaught e))
  | (printed, None) =>
      let noun_list := extract_nouns tags_list in
      ((MsgLemmaTag <$> printed)
         ++ [MsgNumTokens (length tokens); MsgNumNouns (length noun_list)],
       inr (tokens, noun_list))
  end.

(** ** [main] (lines 219-234) *)

(** [make_dict] with its print of line 148. *)
Definition make_dict_io `{A : ArgSort} (tokens noun_list : list string)
  : io (list string) :=
  match make_dict tokens noun_list with
  | None => ([], inl (Uncaught IndexError))
  | Some most_common_words =>
      ([MsgMostCommon most_common_words], inr most_common_words)
  end.

(** [guessing_game] on the draws [rand] and the lines [inputs]: what it
    printed, and the exception it raised or the configuration it is in
    when the lines are used up. *)
Definition guessing_game_io (words : list string) (rand : nat → nat)
    (inputs : list string) : io config :=
  let '(c, evs) := guessing_game words rand inputs in
  (MsgGame <$> evs,
   match c with
   | Raised e _ => inl (Uncaught e)
   | _ => inr c
   end).

Definition main `{T : Toolkit} `{S : SetOrder} `{A : ArgSort}
    (argv : list string) (fs : string → file_state)
    (rand : nat → nat) (inputs : list string) : io config :=
  raw_text ← file_check argv fs;
  '(tokens, noun_list) ← preprocess raw_text;
  most_common_words ← make_dict_io tokens noun_list;
  guessing_game_io most_common_words rand inputs.

(** ** Collaborators to run the program on examples *)

(** The words of a text between spaces. *)
Fixpoint split_words (s : string) : list string :=
  match s with
  | EmptyString => [""]
  | String c s' =>
      if decide (c = " "%char) then "" :: split_words s'
      else match split_words s' with
           | w :: ws => String c w :: ws
           | [] => [String c ""]
           end
  end.

Definition plain_toolkit : Toolkit :=
  {| word_tokenize := λ s, filter (λ w, w ≠ "") (split_words s);
     stopWords := ["because"; "through"];
     lemmatize := λ w, w;
     pos_tag := λ ws, (λ w, (w, "NN")) <$> ws;
     pos_tag_words := λ ws,
       eq_trans (eq_sym (list_fmap_compose _ _ ws)) (list_fmap_id ws) |}.

Definition first_seen_order : SetOrder :=
  {| set_list := remove_dups;
     set_list_NoDup := NoDup_remove_dups;
     set_list_elem := elem_of_remove_dups |}.


(** A text with more than 20 distinct long words, and a file system that
    holds it, an empty file and a file of spaces. *)
Definition sample_text : string :=
  "The Garden because gardens FOREST forest rivers mountain valleys streams meadows orchards villages harbors bridges castles temples markets gardeners painters writers singers dancers hunters farmers 12345678 bakers".


Definition sample_fs (path : string) : file_state :=
  if decide (path = "sample.txt") then Text sample_text
  else if decide (path = "empty.txt") then Text ""
  else if decide (path = "spaces.txt") then Text "   "
  else Missing.

(** * Properties of the frequency ranker *)

Section dict_facts.
Implicit Types (d : dict) (k : string) (v c : nat).

Lemma dict_get_set d k v k' :
  dict_get (dict_set d k v) k' =
    if decide (k' = k) then Some v else dict_get d k'.
Proof.
  induction d as [|[k0 v0] d IH]; simpl.
  - repeat case_decide; congruence.
  - repeat (case_decide; simpl); try congruence.
Qed.

Lemma dict_get_None d k : dict_get d k = None ↔ k ∉ keys d.
Proof.
  unfold keys. induction d as [|[k0 v0] d IH]; simpl.
  - split; [intros _; apply not_elem_of_nil | done].
  - rewrite not_elem_of_cons. case_decide as Hk.
    + split; [done|]. intros [? _]. done.
    + rewrite IH. split; [done|]. intros [_ ?]. done.
Qed.

Lemma dict_set_fresh d k v : k ∉ keys d → dict_set d k v = d ++ [(k, v)].
Proof.
  unfold keys. induction d as [|[k0 v0] d IH]; simpl; [done|].
  rewrite not_elem_of_cons. intros [? ?]. case_decide; [done|].
  by rewrite IH.
Qed.

Lemma keys_dict_set_present d k v :
  k ∈ keys d → keys (dict_set d k v) = keys d.
Proof.
  unfold keys. induction d as [|[k0 v0] d IH]; simpl.
  - intros ?%elem_of_nil. done.
  - intros Hin. case_decide; [done|]. simpl. f_equal. apply IH.
    apply elem_of_cons in Hin as [?|?]; [congruence|done].
Qed.

Lemma dict_lookup_get d i k c :
  NoDup (keys d) → d !! i = Some (k, c) → dict_get d k = Some c.
Proof.
  unfold keys. revert i. induction d as [|[k0 v0] d IH]; intros i Hnd Hi.
  - done.
  - apply NoDup_cons in Hnd as [Hk0 Hnd]. destruct i as [|i]; simpl in *.
    + simplify_eq. by rewrite decide_True.
    + case_decide as Hk; [|by eapply IH].
      subst k0. exfalso. apply Hk0.
      apply list_elem_of_fmap. exists (k, c). split; [done|].
      by eapply list_elem_of_lookup_2.
Qed.
End dict_facts.

Section counting.
Implicit Types (d : dict) (k : string) (tokens nouns : list string).

Lemma dict_set_NoDup d k v : NoDup (keys d) → NoDup (keys (dict_set d k v)).
Proof.
  intros Hnd. destruct (decide (k ∈ keys d)) as [Hin|Hout].
  - by rewrite keys_dict_set_present.
  - rewrite dict_set_fresh by done. unfold keys in *. rewrite fmap_app.
    apply NoDup_app. split_and!; [done| |apply NoDup_singleton].
    intros x Hx ->%list_elem_of_singleton. done.
Qed.

Lemma seed_from_get d nouns k :
  dict_get (foldl (λ d noun, dict_set d noun 0) d nouns) k =
    if decide (k ∈ nouns) then Some 0 else dict_get d k.
Proof.
  revert d. induction nouns as [|n nouns IH]; intros d.
  - cbn [foldl]. case_decide as Hin; [by apply elem_of_nil in Hin|done].
  - cbn [foldl].
    rewrite IH, dict_get_set.
    destruct (decide (k ∈ n :: nouns)) as [Hin|Hout].
    + apply elem_of_cons in Hin as [->|Hin].
      * case_decide; [done|]. by rewrite decide_True.
      * by rewrite decide_True.
    + apply not_elem_of_cons in Hout as [Hne Hout].
      by rewrite !decide_False.
Qed.

Lemma seed_from_NoDup d nouns :
  NoDup (keys d) → NoDup (keys (foldl (λ d noun, dict_set d noun 0) d nouns)).
Proof.
  revert d. induction nouns as [|n nouns IH]; intros d Hnd; simpl; [done|].
  apply IH. by apply dict_set_NoDup.
Qed.

Lemma seed_nouns_get nouns k :
  dict_get (seed_nouns nouns) k = if decide (k ∈ nouns) then Some 0 else None.
Proof. unfold seed_nouns. by rewrite seed_from_get. Qed.

Lemma occurrences_cons k t tokens :
  occurrences k (t :: tokens) =
    if decide (t = k) then S (occurrences k tokens) else occurrences k tokens.
Proof. unfold occurrences. rewrite filter_cons. by case_decide. Qed.

Lemma count_tokens_keys d tokens : keys (count_tokens d tokens) = keys d.
Proof.
  unfold count_tokens. revert d.
  induction tokens as [|t tokens IH]; intros d; simpl; [done|].
  rewrite IH. destruct (dict_get d t) as [c|] eqn:Hget; [|done].
  apply keys_dict_set_present.
  destruct (decide (t ∈ keys d)) as [|Hout]; [done|].
  apply dict_get_None in Hout. congruence.
Qed.

Lemma count_tokens_get d tokens k :
  dict_get (count_tokens d tokens) k =
    (λ c, c + occurrences k tokens) <$> dict_get d k.
Proof.
  unfold count_tokens. revert d.
  induction tokens as [|t tokens IH]; intros d; simpl.
  - destruct (dict_get d k); simpl; [|done]. f_equal.
    unfold occurrences. simpl. lia.
  - rewrite IH, occurrences_cons.
    destruct (dict_get d t) as [c|] eqn:Hget.
    + rewrite dict_get_set. destruct (decide (k = t)) as [->|Hne].
      * rewrite decide_True, Hget by done. simpl. f_equal. lia.
      * rewrite decide_False by done. done.
    + destruct (decide (t = k)) as [->|Hne]; [|done].
      by rewrite Hget.
Qed.

Lemma count_nouns_get tokens nouns k :
  dict_get (count_nouns tokens nouns) k =
    if decide (k ∈ nouns) then Some (occurrences k tokens) else None.
Proof.
  unfold count_nouns. rewrite count_tokens_get, seed_nouns_get.
  by case_decide.
Qed.

Lemma count_nouns_NoDup tokens nouns : NoDup (keys (count_nouns tokens nouns)).
Proof.
  unfold count_nouns. rewrite count_tokens_keys.
  apply seed_from_NoDup. apply NoDup_nil_2.
Qed.
End counting.

Section ranking.
Implicit Types (d acc : dict) (idx : list nat).

Lemma StronglySorted_lookup {A} (R : relation A) (l : list A) i j x y :
  StronglySorted R l → i < j → l !! i = Some x → l !! j = Some y → R x y.
Proof.
  intros Hl. revert i j. induction Hl as [|a l Hl IH Ha]; intros i j Hij Hi Hj.
  - done.
  - destruct j as [|j]; [lia|]. destruct i as [|i]; simpl in *.
    + simplify_eq. rewrite Forall_forall in Ha. apply Ha.
      by eapply list_elem_of_lookup_2.
    + eapply (IH i j); [lia|done..].
Qed.

Lemma StronglySorted_reverse {A} (R : relation A) (l : list A) :
  StronglySorted R l → StronglySorted (flip R) (reverse l).
Proof.
  induction 1 as [|a l Hl IH Ha]; [apply SSorted_nil|].
  rewrite reverse_cons. apply StronglySorted_app. split_and!.
  - intros x1 x2 Hx1 Hx2. rewrite elem_of_reverse in Hx1.
    apply list_elem_of_singleton in Hx2 as ->.
    rewrite Forall_forall in Ha. by apply Ha.
  - done.
  - repeat constructor.
Qed.

Lemma rebuild_from d acc idx :
  NoDup (keys d) → NoDup idx → Forall (λ i, i < length d) idx →
  (∀ i kv, i ∈ idx → d !! i = Some kv → kv.1 ∉ keys acc) →
  ∃ l, Forall2 (λ i kv, d !! i = Some kv) idx l ∧
       foldl (λ o i,
                a ← o; k ← keys d !! i; v ← values d !! i;
                Some (dict_set a k v)) (Some acc) idx = Some (acc ++ l).
Proof.
  intros Hnd. revert acc.
  induction idx as [|i idx IH]; intros acc Hidx Hlt Hfresh; simpl.
  - exists []. split; [constructor|]. by rewrite app_nil_r.
  - apply NoDup_cons in Hidx as [Hi Hidx].
    apply Forall_cons in Hlt as [Hilt Hlt].
    destruct (lookup_lt_is_Some_2 d i Hilt) as [[k v] Hkv].
    assert (Hk : keys d !! i = Some k)
      by (unfold keys; by rewrite list_lookup_fmap, Hkv).
    assert (Hv : values d !! i = Some v)
      by (unfold values; by rewrite list_lookup_fmap, Hkv).
    rewrite Hk, Hv. simpl.
    rewrite dict_set_fresh
      by (apply (Hfresh i (k, v)); [apply list_elem_of_here|done]).
    destruct (IH (acc ++ [(k, v)])) as (l & Hl & Hfold); [done..| |].
    + intros j [kj vj] Hj Hjd. unfold keys. rewrite fmap_app.
      rewrite not_elem_of_app. split.
      * apply (Hfresh j (kj, vj)); [by apply list_elem_of_further|done].
      * simpl. intros ->%list_elem_of_singleton. apply Hi.
        assert (Hkj : keys d !! j = Some k)
          by (unfold keys; by rewrite list_lookup_fmap, Hjd).
        by rewrite (NoDup_lookup _ _ _ _ Hnd Hk Hkj).
    + exists ((k, v) :: l). split; [by constructor|].
      rewrite Hfold. by rewrite <-app_assoc.
Qed.

Context `{A : ArgSort}.

Lemma sorted_value_index_perm d :
  sorted_value_index d ≡ₚ seq 0 (length d).
Proof.
  unfold sorted_value_index. rewrite reverse_Permutation, argsort_perm.
  unfold values. by rewrite length_fmap.
Qed.

Lemma sort_dict_Some d :
  NoDup (keys d) →
  ∃ l, sort_dict d = Some l ∧
       Forall2 (λ i kv, d !! i = Some kv) (sorted_value_index d) l.
Proof.
  intros Hnd. unfold sort_dict, rebuild.
  destruct (rebuild_from d [] (sorted_value_index d)) as (l & Hl & Hfold).
  - done.
  - rewrite sorted_value_index_perm. apply NoDup_seq.
  - apply Forall_forall. intros i Hi.
    rewrite sorted_value_index_perm in Hi. apply elem_of_seq in Hi. lia.
  - intros i kv _ _. apply not_elem_of_nil.
  - exists l. split; [|done]. by rewrite Hfold.
Qed.

(** Two keys of the output, with their positions in the ranking and
    in the dict the counts were taken in. *)
Lemma make_dict_pairs tokens nouns :
  let d := count_nouns tokens nouns in
  ∃ out, make_dict tokens nouns = Some out ∧
    ∀ k1 k2, ranked_before out k1 k2 →
      ∃ p q i1 i2 c1 c2, p < q ∧
        sorted_value_index d !! p = Some i1 ∧
        sorted_value_index d !! q = Some i2 ∧
        d !! i1 = Some (k1, c1) ∧ d !! i2 = Some (k2, c2).
Proof.
  intros d. unfold make_dict. fold d.
  destruct (sort_dict_Some d) as (l & -> & Hl);
    [apply count_nouns_NoDup|].
  simpl. eexists; split; [done|].
  intros k1 k2 (p & q & Hpq & Hp & Hq).
  apply lookup_take_Some in Hp as [Hp _].
  apply lookup_take_Some in Hq as [Hq _].
  unfold keys in Hp, Hq. rewrite list_lookup_fmap in Hp, Hq.
  destruct (l !! p) as [[k1' c1]|] eqn:Hlp; simplify_eq/=.
  destruct (l !! q) as [[k2' c2]|] eqn:Hlq; simplify_eq/=.
  destruct (Forall2_lookup_r _ _ _ _ _ Hl Hlp) as (i1 & Hi1 & Hd1).
  destruct (Forall2_lookup_r _ _ _ _ _ Hl Hlq) as (i2 & Hi2 & Hd2).
  by exists p, q, i1, i2, c1, c2.
Qed.
End ranking.

Section ranked_order.
Context `{A : ArgSort}.

Lemma values_lookup (d : dict) i k c :
  d !! i = Some (k, c) → default 0 (values d !! i) = c.
Proof. intros Hd. unfold values. by rewrite list_lookup_fmap, Hd. Qed.

Lemma keys_lookup (d : dict) i k c :
  d !! i = Some (k, c) → keys d !! i = Some k.
Proof. intros Hd. unfold keys. by rewrite list_lookup_fmap, Hd. Qed.

Lemma make_dict_descending tokens nouns :
  ∃ out, make_dict tokens nouns = Some out ∧
         descending_counts (count_nouns tokens nouns) out.
Proof.
  destruct (make_dict_pairs tokens nouns) as (out & Hout & Hpairs).
  exists out. split; [done|]. intros k1 k2 Hrb.
  destruct (Hpairs k1 k2 Hrb)
    as (p & q & i1 & i2 & c1 & c2 & Hpq & Hp & Hq & Hd1 & Hd2).
  exists c1, c2. split_and!.
  - eapply dict_lookup_get; [apply count_nouns_NoDup|done].
  - eapply dict_lookup_get; [apply count_nouns_NoDup|done].
  - pose proof (argsort_sorted (values (count_nouns tokens nouns))) as Hs.
    apply StronglySorted_reverse in Hs. rewrite <-fmap_reverse in Hs.
    fold (sorted_value_index (count_nouns tokens nouns)) in Hs.
    rewrite <-(values_lookup _ _ _ _ Hd1), <-(values_lookup _ _ _ _ Hd2).
    eapply (StronglySorted_lookup (flip le) _ p q); [exact Hs|done|..].
    + by rewrite list_lookup_fmap, Hp.
    + by rewrite list_lookup_fmap, Hq.
Qed.

(** An argsort that meets the contract has no choice on two keys with
    different counts. *)
Lemma argsort_two a b : b < a → argsort [a; b] = [1; 0].
Proof.
  intros Hab.
  pose proof (argsort_perm [a; b]) as Hp.
  pose proof (argsort_sorted [a; b]) as Hs.
  pose proof (Permutation_length Hp) as Hlen.
  assert (Hnd : NoDup (argsort [a; b])) by (rewrite Hp; apply NoDup_seq).
  destruct (argsort [a; b]) as [|x [|y [|z l]]]; simpl in Hlen; try lia.
  assert (Hx : x ∈ [0; 1]) by (rewrite <-Hp; apply list_elem_of_here).
  assert (Hy : y ∈ [0; 1])
    by (rewrite <-Hp; apply list_elem_of_further, list_elem_of_here).
  apply NoDup_cons in Hnd as [Hxy _].
  rewrite not_elem_of_cons in Hxy.
  apply StronglySorted_cons in Hs as [Hs _].
  apply Forall_cons in Hs as [Hs _].
  rewrite !elem_of_cons, elem_of_nil in Hx, Hy.
  destruct Hx as [->|[->|[]]], Hy as [->|[->|[]]];
    simpl in *; first [done | lia | naive_solver].
Qed.
End ranked_order.

(** C5: every noun key's count is the number of tokens equal to it (a key
    is a noun of the list; a string that is no noun has no entry), and on
    nouns [cat, dog] with tokens [cat, dog, cat, bird, cat] the counts are
    cat=3, dog=1 and the ranked order is [cat, dog], under every argsort
    that meets numpy's contract. *)
Theorem count_correctness :
  (∀ tokens nouns noun,
     dict_get (count_nouns tokens nouns) noun =
       if decide (noun ∈ nouns) then Some (occurrences noun tokens) else None)
  ∧ count_nouns ["cat"; "dog"; "cat"; "bird"; "cat"] ["cat"; "dog"]
      = [("cat", 3); ("dog", 1)]
  ∧ (∀ A : ArgSort,
       sort_dict (count_nouns ["cat"; "dog"; "cat"; "bird"; "cat"] ["cat"; "dog"])
         = Some [("cat", 3); ("dog", 1)]
       ∧ make_dict ["cat"; "dog"; "cat"; "bird"; "cat"] ["cat"; "dog"]
         = Some ["cat"; "dog"]).
Proof.
  split_and!.
  - apply count_nouns_get.
  - reflexivity.
  - intros A.
    assert (Hs : sort_dict
               (count_nouns ["cat"; "dog"; "cat"; "bird"; "cat"] ["cat"; "dog"])
             = Some [("cat", 3); ("dog", 1)]).
    { change (count_nouns _ _) with [("cat", 3); ("dog", 1)].
      unfold sort_dict, sorted_value_index.
      change (values [("cat", 3); ("dog", 1)]) with [3; 1].
      rewrite argsort_two by lia. reflexivity. }
    split; [done|]. unfold make_dict. by rewrite Hs.
Qed.

(** Where argsort leaves two equal counts in place, the ranking swaps
    them. *)
Lemma equal_counts_reversed (A : ArgSort) :
  argsort [0; 0] = [0; 1] →
  make_dict [] ["cat"; "dog"] = Some ["dog"; "cat"].
Proof.
  intros Hsort. unfold make_dict, sort_dict, sorted_value_index.
  change (count_nouns [] ["cat"; "dog"]) with [("cat", 0); ("dog", 0)].
  change (values [("cat", 0); ("dog", 0)]) with [0; 0].
  by rewrite Hsort.
Qed.

(** C4, as the specification states it, fails: the ranking does not keep
    keys with equal counts in insertion order.  With an argsort that lists
    two equal counts in index order, the nouns [cat, dog], both with count
    0, are ranked [dog, cat]. *)
Lemma ties_not_in_insertion_order :
  ¬ (∀ (A : ArgSort) (tokens nouns out : list string),
       make_dict tokens nouns = Some out →
       ties_in_insertion_order (count_nouns tokens nouns) out).
Proof.
  intros Hclaim.
  assert (Hout : make_dict (A:=stable_argsort) [] ["cat"; "dog"]
                 = Some ["dog"; "cat"])
    by (apply equal_counts_reversed; vm_compute; reflexivity).
  destruct (Hclaim stable_argsort [] ["cat"; "dog"] ["dog"; "cat"] Hout
              "dog" "cat") as (i & j & Hij & Hi & Hj).
  - exists 0, 1. split_and!; [lia|done..].
  - reflexivity.
  - change (keys (count_nouns [] ["cat"; "dog"])) with ["cat"; "dog"] in Hi, Hj.
    destruct i as [|[|i]], j as [|[|j]]; simplify_eq/=; lia.
Qed.

(** The order of two keys with equal counts is argsort's choice: the two
    instances rank the same two nouns in opposite orders. *)
Lemma tie_order_left_open :
  make_dict (A:=stable_argsort) [] ["cat"; "dog"] = Some ["dog"; "cat"]
  ∧ make_dict (A:=reversed_ties_argsort) [] ["cat"; "dog"]
    = Some ["cat"; "dog"].
Proof. split; vm_compute; reflexivity. Qed.

(** C4, amended: for every argsort that meets numpy's contract, the
    ranking lists the keys by descending count, and two keys stand in the
    output in the reverse of the order in which argsort lists their
    indices: the code has no tie-break of its own, and keys with equal
    counts come out as argsort happens to list them. *)
Theorem ranking_order (A : ArgSort) (tokens nouns : list string) :
  let d := count_nouns tokens nouns in
  ∃ out,
    make_dict tokens nouns = Some out ∧
    descending_counts d out ∧
    ∀ k1 k2, ranked_before out k1 k2 →
      ∃ i1 i2, keys d !! i1 = Some k1 ∧ keys d !! i2 = Some k2 ∧
               listed_before (argsort (values d)) i2 i1.
Proof.
  intros d.
  destruct (make_dict_descending tokens nouns) as (out & Hout & Hdesc).
  exists out. split_and!; [done..|].
  destruct (make_dict_pairs tokens nouns) as (out' & Hout' & Hpairs).
  assert (out' = out) as -> by congruence.
  intros k1 k2 Hrb.
  destruct (Hpairs k1 k2 Hrb)
    as (p & q & i1 & i2 & c1 & c2 & Hpq & Hp & Hq & Hd1 & Hd2).
  exists i1, i2. split_and!; [by eapply keys_lookup..|].
  unfold sorted_value_index in Hp, Hq. fold d in Hp, Hq.
  apply reverse_lookup_Some in Hp as [Hp Hplen].
  apply reverse_lookup_Some in Hq as [Hq Hqlen].
  eexists _, _. split_and!; [|exact Hq|exact Hp]. lia.
Qed.

Lemma ranking_order_witness :
  ∃ i1 i2,
    keys (count_nouns ["dog"; "cat"; "dog"] ["cat"; "dog"]) !! i1 = Some "dog"
    ∧ keys (count_nouns ["dog"; "cat"; "dog"] ["cat"; "dog"]) !! i2 = Some "cat"
    ∧ listed_before
        (argsort (ArgSort:=reversed_ties_argsort)
           (values (count_nouns ["dog"; "cat"; "dog"] ["cat"; "dog"]))) i2 i1.
Proof.
  destruct (ranking_order reversed_ties_argsort
              ["dog"; "cat"; "dog"] ["cat"; "dog"]) as (out & Hout & _ & Hrev).
  vm_compute in Hout. injection Hout as <-.
  apply (Hrev "dog" "cat").
  exists 0, 1. split_and!; [lia|reflexivity|reflexivity].
Defined.

(** * The first-20 report *)

Lemma report_loop_seq (tags_list : list (string * string)) (j n : nat) :
  j ≤ length tags_list →
  report_loop tags_list (seq j n) =
    if decide (j + n ≤ length tags_list)
    then (take n (drop j tags_list), None)
    else (drop j tags_list, Some IndexError).
Proof.
  revert j. induction n as [|n IH]; intros j Hj.
  - simpl. rewrite decide_True by lia. done.
  - cbn [seq report_loop].
    destruct (tags_list !! j) as [entry|] eqn:Hentry.
    + pose proof (lookup_lt_Some _ _ _ Hentry) as Hlt.
      rewrite IH by lia. rewrite (drop_S _ _ _ Hentry).
      destruct (decide (S j + n ≤ length tags_list)).
      * rewrite decide_True by lia. done.
      * rewrite decide_False by lia. done.
    + apply lookup_ge_None in Hentry.
      rewrite decide_False by lia. by rewrite drop_ge by lia.
Qed.

(** C6 fails on the code: on fewer than 20 tagged lemmas the report prints
    the entries there are and then raises IndexError, which also keeps
    [preprocess] from returning its noun list. *)
Theorem report_first_20_short (tags_list : list (string * string)) :
  length tags_list < 20 →
  report_first_20 tags_list = (tags_list, Some IndexError)
  ∧ report_and_extract tags_list = (tags_list, inl IndexError).
Proof.
  intros Hlen.
  assert (Hr : report_first_20 tags_list = (tags_list, Some IndexError)).
  { unfold report_first_20. rewrite report_loop_seq by lia.
    rewrite decide_False by lia. done. }
  split; [done|]. unfold report_and_extract. by rewrite Hr.
Qed.

Lemma report_first_20_short_witness :
  report_first_20 [("forest", "NN"); ("garden", "NN"); ("walked", "VBD")]
    = ([("forest", "NN"); ("garden", "NN"); ("walked", "VBD")], Some IndexError).
Proof.
  apply (report_first_20_short
           [("forest", "NN"); ("garden", "NN"); ("walked", "VBD")]).
  simpl. lia.
Defined.

(** With 20 entries or more the report prints the first 20 and the noun
    list is returned. *)
Lemma report_first_20_long (tags_list : list (string * string)) :
  20 ≤ length tags_list →
  report_and_extract tags_list = (take 20 tags_list, inr (extract_nouns tags_list)).
Proof.
  intros Hlen. unfold report_and_extract, report_first_20.
  rewrite report_loop_seq by lia. rewrite decide_True by lia. done.
Qed.

(** * Properties of the guessing game *)

Section strings_facts.
Lemma letters_length w : length (letters w) = len w.
Proof. unfold len. induction w; simpl; congruence. Qed.

Lemma emit_fst evs res : (emit evs res).1 = res.1.
Proof. done. Qed.

Lemma emit_snd evs res : (emit evs res).2 = evs ++ res.2.
Proof. done. Qed.
End strings_facts.

Section reveal_facts.
Implicit Types (wl h : list string) (g : string).

Lemma reveal_prefix wl h g n :
  length h = length wl → n ≤ length wl →
  ∃ h', foldl (λ acc i,
                 h ← acc;
                 if decide (wl !! i = Some g) then setitem h i g
                 else Some h) (Some h) (seq 0 n) = Some h'
        ∧ length h' = length h
        ∧ ∀ i, h' !! i =
               if decide (i < n ∧ wl !! i = Some g) then Some g else h !! i.
Proof.
  intros Hlen. induction n as [|n IH]; intros Hn.
  - exists h. split_and!; [done..|]. intros i.
    rewrite decide_False; [done|lia].
  - destruct IH as (h1 & Hfold & Hlen1 & Hlook); [lia|].
    rewrite seq_S, foldl_app, Hfold. cbn [foldl mbind option_bind plus].
    destruct (decide (wl !! n = Some g)) as [Hg|Hg].
    + unfold setitem. rewrite decide_True by lia.
      eexists. split_and!; [done|by rewrite length_insert|].
      intros i. destruct (decide (i = n)) as [->|Hi].
      * rewrite list_lookup_insert_eq by lia.
        rewrite decide_True; [done|]. split; [lia|done].
      * rewrite list_lookup_insert_ne by done. rewrite Hlook.
        destruct (decide (i < n ∧ wl !! i = Some g)) as [[??]|Hno].
        -- rewrite decide_True; [done|]. split; [lia|done].
        -- rewrite decide_False; [done|]. intros [??]. apply Hno.
           split; [lia|done].
    + exists h1. split_and!; [done..|]. intros i. rewrite Hlook.
      destruct (decide (i < n ∧ wl !! i = Some g)) as [[??]|Hno].
      * rewrite decide_True; [done|]. split; [lia|done].
      * rewrite decide_False; [done|]. intros [??].
        destruct (decide (i = n)) as [->|Hi]; [done|].
        apply Hno. split; [lia|done].
Qed.

Lemma reveal_Some wl h g :
  length h = length wl →
  ∃ h', reveal wl h g = Some h'
        ∧ length h' = length h
        ∧ ∀ i, h' !! i = if decide (wl !! i = Some g) then Some g else h !! i.
Proof.
  intros Hlen.
  destruct (reveal_prefix wl h g (length wl)) as (h' & Hfold & Hlen' & Hlook);
    [done..|].
  exists h'. split_and!; [done..|]. intros i. rewrite Hlook.
  destruct (decide (wl !! i = Some g)) as [Hg|Hg].
  - rewrite decide_True; [done|]. split; [|done].
    by eapply lookup_lt_Some.
  - rewrite decide_False; [done|]. by intros [_ ?].
Qed.
End reveal_facts.

Section between_inputs.
Implicit Types (s : Z) (r : round) (k : nat).

Lemma random_choice_Some (words : list string) n :
  words ≠ [] → is_Some (random_choice n words).
Proof.
  destruct words as [|w words]; [done|]. intros _. unfold random_choice.
  apply lookup_lt_is_Some. apply Nat.mod_upper_bound. done.
Qed.

Lemma random_choice_None (words : list string) n :
  random_choice n words = None → words = [].
Proof.
  intros Hnone. destruct words as [|w words]; [done|].
  destruct (random_choice_Some (w :: words) n) as [x Hx]; [done|].
  congruence.
Qed.

Lemma placeholders_ok (wl : list string) :
  Forall2 (λ h w, h = "_ " ∨ h = w) ((λ _, "_ ") <$> wl) wl.
Proof. induction wl; simpl; constructor; auto. Qed.

Lemma new_round_ok w : round_ok (new_round w).
Proof. split; [done|]. apply placeholders_ok. Qed.

Lemma inner_head_score s r k : score_of (inner_head s r k).1 = s.
Proof.
  unfold inner_head, post_round.
  destruct (loop_guard s r); [done|]. by case_decide.
Qed.

Lemma inner_head_round s r k : round_of (inner_head s r k).1 = Some r.
Proof.
  unfold inner_head, post_round.
  destruct (loop_guard s r); [done|]. by case_decide.
Qed.

Lemma inner_head_rounds_started s r k :
  rounds_started (inner_head s r k).1 = Some k.
Proof.
  unfold inner_head, post_round.
  destruct (loop_guard s r); [done|]. by case_decide.
Qed.

Lemma loop_guard_true s r :
  loop_guard s r = true ↔ hidden_word r ≠ word_letters r ∧ (0 < s)%Z.
Proof.
  unfold loop_guard. rewrite andb_true_iff, !bool_decide_eq_true. done.
Qed.

Lemma loop_guard_false s r :
  loop_guard s r = false ↔ hidden_word r = word_letters r ∨ ¬ (0 < s)%Z.
Proof.
  unfold loop_guard. rewrite andb_false_iff, !bool_decide_eq_false.
  split.
  - intros [Heq|Hs]; [left; by apply dec_stable|by right].
  - intros [Heq|Hs]; [left; by intros Hne|by right].
Qed.

Lemma inner_head_inv words s r k :
  words ≠ [] → at_loop_head s r → inv words (inner_head s r k).1.
Proof.
  intros Hw (Hs & Hok & Hsolved). unfold inner_head, post_round.
  destruct (loop_guard s r) eqn:Hguard.
  - apply loop_guard_true in Hguard as [??]. done.
  - apply loop_guard_false in Hguard.
    destruct (decide (0 < s)%Z) as [Hpos|Hzero]; simpl.
    + split_and!; [done..|]. by destruct Hguard.
    + split_and!; [lia|done|]. intros Heq. auto.
Qed.

(** The state a hit leaves at the loop head. *)
Lemma hit_at_loop_head s r guess hidden :
  (0 < s)%Z → round_ok r →
  (∀ i, hidden !! i =
        if decide (word_letters r !! i = Some guess) then Some guess
        else hidden_word r !! i) →
  length hidden = length (hidden_word r) →
  at_loop_head (s + 1)
    (Round (word r) (word_letters r) (guessed_letters r ++ [guess]) hidden).
Proof.
  intros Hs [Hletters Hmask] Hlook Hlen.
  split_and!; [lia| |simpl; lia].
  split; [done|]. simpl.
  apply Forall2_same_length_lookup. split.
  - rewrite Hlen. by eapply Forall2_length.
  - intros i x y Hx Hy. rewrite Hlook in Hx. case_decide as Hg.
    + right. congruence.
    + by eapply (Forall2_lookup_lr _ _ _ i x y Hmask).
Qed.

Lemma guess_step_inv words s r k line :
  inv words (NeedGuess s r k) → inv words (guess_step s r k line).1.
Proof.
  intros (Hw & Hs & Hok & Hopen). unfold guess_step.
  assert (Hhead : at_loop_head s r) by (split_and!; [lia|done..]).
  repeat case_decide; try destruct (_ || _); rewrite ?emit_fst;
    try (by apply inner_head_inv); try done.
  - destruct (reveal_Some (word_letters r) (hidden_word r) (lower line))
      as (hidden & -> & Hlen & Hlook);
      [destruct Hok as [_ Hmask]; by eapply Forall2_length|].
    rewrite emit_fst. apply inner_head_inv; [done|].
    by apply hit_at_loop_head.
  - apply inner_head_inv; [done|].
    split_and!; [lia|done|]. simpl. intros Heq. done.
Qed.

Lemma again_step_inv words rand s r k line :
  inv words (NeedAgain s r k) → inv words (again_step words rand s r k line).1.
Proof.
  intros (Hw & Hs & Hok & Hsolved). unfold again_step, outer_head.
  case_decide; [done|]. rewrite decide_True by done.
  destruct (random_choice_Some words (rand k) Hw) as [w ->].
  apply inner_head_inv; [done|].
  split_and!; [lia|apply new_round_ok|done].
Qed.
End between_inputs.

Section session_facts.
Variable words : list string.
Variable rand : nat → nat.

Lemma step_inv c line : inv words c → inv words (step words rand c line).1.
Proof.
  destruct c as [s r k|s r k|e s r k|e s]; simpl.
  - apply guess_step_inv.
  - apply again_step_inv.
  - done.
  - done.
Qed.

Lemma run_fst_cons c line rest :
  (run words rand c (line :: rest)).1 =
    (run words rand (step words rand c line).1 rest).1.
Proof. simpl. by destruct (step words rand c line). Qed.

Lemma run_inv c inputs : inv words c → inv words (run words rand c inputs).1.
Proof.
  revert c. induction inputs as [|line rest IH]; intros c Hc; [done|].
  rewrite run_fst_cons. by apply IH, step_inv.
Qed.

Lemma start_inv : inv words (start words rand).1.
Proof.
  unfold start, outer_head. rewrite emit_fst, decide_True by done.
  destruct (random_choice (rand 0) words) as [w|] eqn:Hw.
  - apply inner_head_inv.
    + intros ->. done.
    + split_and!; [done|apply new_round_ok|done].
  - split; [|done]. by eapply random_choice_None.
Qed.

Lemma reachable_inv c : reachable words rand c → inv words c.
Proof.
  intros [inputs <-]. unfold guessing_game. rewrite emit_fst.
  apply run_inv, start_inv.
Qed.

Lemma reachable_step c line :
  reachable words rand c → reachable words rand (step words rand c line).1.
Proof.
  intros [inputs <-]. exists (inputs ++ [line]).
  unfold guessing_game. rewrite !emit_fst.
  generalize (start words rand).1. clear.
  induction inputs as [|l rest IH]; intros c.
  - simpl. by destruct (step words rand c line).
  - rewrite <-app_comm_cons, !run_fst_cons. apply IH.
Qed.

Lemma run_stopped c inputs :
  ¬ awaits_input c → run words rand c inputs = (c, []).
Proof.
  intros Hc. induction inputs as [|line rest IH]; [done|].
  destruct c; simpl in *; try done; by rewrite IH.
Qed.
End session_facts.

(** C7: a guess that is not exactly one letter, or that repeats a guessed
    letter, leaves the score, the mask and the guessed letters as they
    were; unless it is the quit sentinel, the round being open, the program
    prints a notice and prompts again in the same state. *)
Theorem rejected_guess_no_change (s : Z) (r : round) (k : nat) (line : string) :
  rejected r (lower line) →
  let res := guess_step s r k line in
  score_of res.1 = s
  ∧ round_of res.1 = Some r
  ∧ (lower line ≠ "!" → loop_guard s r = true →
     res.1 = NeedGuess s r k
     ∧ ∃ notice, notice ∈ [PrintInvalid; PrintAlready]
                 ∧ res.2 = [notice; PrintHidden (hidden_word r); PromptGuess]).
Proof.
  intros Hrej res. subst res. unfold guess_step.
  destruct (decide (lower line = "!")) as [Hquit|Hquit]; [done|].
  destruct (negb (len (lower line) =? 1) || negb (isalpha (lower line)))
    eqn:Hvalid.
  - rewrite emit_fst, emit_snd, inner_head_score, inner_head_round.
    split_and!; [done..|]. intros _ Hguard. unfold inner_head.
    rewrite Hguard. split; [done|]. exists PrintInvalid.
    split; [apply list_elem_of_here|done].
  - apply orb_false_iff in Hvalid as [Hlen Halpha].
    apply negb_false_iff in Hlen, Halpha. apply Nat.eqb_eq in Hlen.
    destruct Hrej as [?|[?|Hrep]]; [done|congruence|].
    rewrite decide_True by done.
    rewrite emit_fst, emit_snd, inner_head_score, inner_head_round.
    split_and!; [done..|]. intros _ Hguard. unfold inner_head.
    rewrite Hguard. split; [done|]. exists PrintAlready.
    split; [apply list_elem_of_further, list_elem_of_here|done].
Qed.

Lemma rejected_guess_no_change_witness :
  (guess_step 5%Z (Round "garden" (letters "garden") ["g"]
                   ["g"; "_ "; "_ "; "_ "; "_ "; "_ "]) 1 "G").1
  = NeedGuess 5 (Round "garden" (letters "garden") ["g"]
                   ["g"; "_ "; "_ "; "_ "; "_ "; "_ "]) 1.
Proof.
  apply (rejected_guess_no_change 5
           (Round "garden" (letters "garden") ["g"]
              ["g"; "_ "; "_ "; "_ "; "_ "; "_ "]) 1 "G").
  - right. right. simpl. apply list_elem_of_here.
  - simpl. discriminate.
  - reflexivity.
Defined.

Lemma fresh_letter_not_quit r guess : fresh_letter r guess → guess ≠ "!".
Proof. intros (_ & Halpha & _) ->. done. Qed.

(** C1, as the specification states it, fails in its scenario: on "garden"
    with the guesses g, a, x, r, d, e, n neither the score path nor the
    final score is the one the specification gives. *)
Lemma scenario_a_not_as_specified :
  score_path 5
    (guessing_game ["garden"] (λ _, 0) ["g"; "a"; "x"; "r"; "d"; "e"; "n"]).2
    ≠ [5; 6; 6; 5; 6; 7; 8; 9]%Z
  ∧ score_of
      (guessing_game ["garden"] (λ _, 0) ["g"; "a"; "x"; "r"; "d"; "e"; "n"]).1
    ≠ 9%Z.
Proof. split; vm_compute; discriminate. Qed.

(** C1, amended: a new single letter that occurs in the secret word is
    revealed at every position holding it and raises the score by 1; one
    that does not occur lowers the score by 1 and leaves the mask as it
    was.  From the initial score 5 on "garden", the guesses g, a, x, r, d,
    e, n give the score path 5, 6, 7, 6, 7, 8, 9, 10 and the round ends
    Solved at score 10. *)
Theorem guess_scoring :
  (∀ (s : Z) (r : round) (k : nat) (line : string),
     let guess := lower line in
     length (hidden_word r) = length (word_letters r) →
     fresh_letter r guess →
     let c' := (guess_step s r k line).1 in
     (guess ∈ word_letters r →
        score_of c' = (s + 1)%Z
        ∧ ∃ r', round_of c' = Some r'
                ∧ ∀ i, hidden_word r' !! i =
                       if decide (word_letters r !! i = Some guess)
                       then Some guess else hidden_word r !! i)
     ∧ (guess ∉ word_letters r →
        score_of c' = (s - 1)%Z
        ∧ ∃ r', round_of c' = Some r' ∧ hidden_word r' = hidden_word r))
  ∧ (∀ rand : nat → nat,
       let res := guessing_game ["garden"] rand
                    ["g"; "a"; "x"; "r"; "d"; "e"; "n"] in
       score_path 5 res.2 = [5; 6; 7; 6; 7; 8; 9; 10]%Z
       ∧ ∃ r k, res.1 = NeedAgain 10 r k
                ∧ outcome_of r = Solved
                ∧ PrintSolved ∈ res.2).
Proof.
  split.
  - intros s r k line guess Hlen Hfresh c'.
    pose proof (fresh_letter_not_quit _ _ Hfresh) as Hquit.
    destruct Hfresh as (Hone & Halpha & Hnew).
    subst c'. unfold guess_step. fold guess.
    rewrite decide_False by done.
    rewrite Hone, Halpha. cbn [Nat.eqb negb orb].
    rewrite (decide_False (P:=guess ∈ guessed_letters r)) by done.
    split; intros Hin.
    + rewrite decide_True by done.
      destruct (reveal_Some (word_letters r) (hidden_word r) guess Hlen)
        as (hidden & -> & _ & Hlook).
      rewrite emit_fst, inner_head_score, inner_head_round.
      split; [done|]. eexists. split; [done|]. exact Hlook.
    + rewrite decide_False by done.
      rewrite emit_fst, inner_head_score, inner_head_round.
      split; [done|]. eexists. split; done.
  - intros rand res. subst res. split; [vm_compute; reflexivity|].
    eexists _, _. split_and!; [vm_compute; reflexivity|reflexivity|].
    apply (bool_decide_unpack _). vm_compute. exact I.
Qed.

Lemma guess_scoring_witness :
  score_of (guess_step 5 (new_round "garden") 1 "g").1 = 6%Z.
Proof.
  refine (proj1 (proj1 (proj1 guess_scoring 5%Z (new_round "garden") 1 "g" _ _) _)).
  - reflexivity.
  - split_and!; [reflexivity|reflexivity|apply not_elem_of_nil].
  - simpl. apply list_elem_of_here.
Defined.

(** C2: the program never waits for input with a score of 0 or less; the
    guess that brings the score to 0 ends the round as Exhausted and the
    session with it, with no continuation prompt, and whatever is typed
    afterwards is not read.  On "forest" at score 1, the miss "q" does
    so. *)
Theorem score_zero_ends_session (words : list string) (rand : nat → nat) :
  (∀ c, reachable words rand c → awaits_input c → (0 < score_of c)%Z)
  ∧ (∀ c line, reachable words rand c → awaits_input c →
       score_of (step words rand c line).1 = 0%Z →
       ∃ r k,
         step words rand c line =
           (Finished ScoreZero 0 (Some r) k,
            [PrintSorry 0; PrintRanOut (word r); PrintCurrent 0; PrintThanks])
         ∧ outcome_of r = Exhausted
         ∧ ∀ more, run words rand (Finished ScoreZero 0 (Some r) k) more
                   = (Finished ScoreZero 0 (Some r) k, []))
  ∧ (∀ k, step words rand (NeedGuess 1 (new_round "forest") k) "q" =
            (Finished ScoreZero 0
               (Some (Round "forest" (letters "forest") ["q"]
                        (hidden_word (new_round "forest")))) k,
             [PrintSorry 0; PrintRanOut "forest"; PrintCurrent 0; PrintThanks])).
Proof.
  split_and!.
  - intros c Hc%reachable_inv Hwait.
    destruct c; simpl in *; try done; by destruct Hc as (_ & ? & _).
  - intros c line Hc%reachable_inv Hwait.
    destruct c as [s r k|s r k|e s r k|e s]; simpl in Hwait; try done.
    + destruct Hc as (Hw & Hs & Hok & Hopen). simpl. unfold guess_step.
      destruct (decide (lower line = "!")); [simpl; lia|].
      destruct (negb _ || negb _);
        [rewrite emit_fst, inner_head_score; lia|].
      destruct (decide (lower line ∈ guessed_letters r));
        [rewrite emit_fst, inner_head_score; lia|].
      destruct (decide (lower line ∈ word_letters r)).
      * destruct (reveal _ _ _); [|simpl; lia].
        rewrite emit_fst, inner_head_score. lia.
      * rewrite emit_fst, inner_head_score. intros Hzero.
        assert (s = 1%Z) as -> by lia.
        exists (Round (word r) (word_letters r)
                  (guessed_letters r ++ [lower line]) (hidden_word r)), k.
        unfold inner_head, post_round, loop_guard.
        cbn [hidden_word word_letters word Z.sub Z.pos_sub Z.add Z.opp].
        rewrite andb_false_r, (decide_False (P:=hidden_word r = _)) by done.
        split_and!; [reflexivity| |].
        -- unfold outcome_of. cbn [hidden_word word_letters].
           by rewrite decide_False.
        -- intros more. apply run_stopped. by intros [].
    + destruct Hc as (Hw & Hs & Hok & Hsolved). simpl.
      unfold again_step, outer_head.
      destruct (decide (lower line ≠ "y")); [simpl; lia|].
      rewrite decide_True by done.
      destruct (random_choice_Some words (rand k) Hw) as [w ->].
      rewrite inner_head_score. lia.
  - intros k. reflexivity.
Qed.

Lemma score_zero_ends_session_witness :
  ∃ r k,
    step ["forest"] (λ _, 0)
      (guessing_game ["forest"] (λ _, 0) ["z"; "x"; "w"; "v"]).1 "q"
    = (Finished ScoreZero 0 (Some r) k,
       [PrintSorry 0; PrintRanOut (word r); PrintCurrent 0; PrintThanks]).
Proof.
  destruct (proj1 (proj2 (score_zero_ends_session ["forest"] (λ _, 0)))
              (guessing_game ["forest"] (λ _, 0) ["z"; "x"; "w"; "v"]).1 "q")
    as (r & k & Hstep & _).
  - by exists ["z"; "x"; "w"; "v"].
  - vm_compute. exact I.
  - vm_compute. reflexivity.
  - by exists r, k.
Defined.

(** C9: on an empty noun list the ranker returns the empty list, and on
    an empty vocabulary the game raises IndexError right after its
    greeting, whatever is typed: no word is picked and no guess asked
    for. *)
Theorem empty_vocabulary_aborts :
  (∀ (A : ArgSort) (tokens : list string), make_dict tokens [] = Some [])
  ∧ (∀ (rand : nat → nat) (inputs : list string),
       guessing_game [] rand inputs = (Raised IndexError 5, [PrintLetsPlay])
       ∧ PromptGuess ∉ (guessing_game [] rand inputs).2).
Proof.
  split.
  - intros A tokens. unfold make_dict, count_nouns.
    assert (Hcount : count_tokens (seed_nouns []) tokens = []).
    { apply (fmap_nil_inv fst). apply (count_tokens_keys [] tokens). }
    rewrite Hcount. unfold sort_dict, sorted_value_index.
    pose proof (argsort_perm (values [])) as Hperm.
    apply Permutation_nil_r in Hperm. by rewrite Hperm.
  - intros rand inputs.
    assert (Hgame : guessing_game [] rand inputs
                    = (Raised IndexError 5, [PrintLetsPlay])).
    { unfold guessing_game.
      change (start [] rand) with (Raised IndexError 5, [PrintLetsPlay]).
      cbn [fst snd]. rewrite run_stopped; [done|by intros []]. }
    split; [done|]. rewrite Hgame.
    intros Hin%list_elem_of_singleton. done.
Qed.

Section mask_facts.
Implicit Types (s : Z) (r : round) (k : nat).

Lemma mask_grows_refl r : mask_grows r r.
Proof. by intros i _. Qed.

Lemma mask_grows_trans r1 r2 r3 :
  mask_grows r1 r2 → mask_grows r2 r3 → mask_grows r1 r3.
Proof.
  intros H12 H23 i Hi. rewrite <-(H12 i Hi). apply H23.
  destruct Hi as (x & Hx & Hshown). exists x. by rewrite (H12 i); [|exists x].
Qed.

(** A guess keeps the program in the round and hides no letter. *)
Lemma guess_step_mask s r k line r1 :
  round_ok r →
  round_of (guess_step s r k line).1 = Some r1 →
  rounds_started (guess_step s r k line).1 = Some k ∧ mask_grows r r1.
Proof.
  intros [Hletters Hmask]. unfold guess_step.
  destruct (decide (lower line = "!")).
  { simpl. intros [= <-]. split; [done|apply mask_grows_refl]. }
  destruct (negb _ || negb _).
  { rewrite emit_fst, inner_head_round, inner_head_rounds_started.
    intros [= <-]. split; [done|apply mask_grows_refl]. }
  destruct (decide (lower line ∈ guessed_letters r)).
  { rewrite emit_fst, inner_head_round, inner_head_rounds_started.
    intros [= <-]. split; [done|apply mask_grows_refl]. }
  destruct (decide (lower line ∈ word_letters r)).
  - destruct (reveal_Some (word_letters r) (hidden_word r) (lower line))
      as (hidden & -> & Hlen & Hlook); [by eapply Forall2_length|].
    rewrite emit_fst, inner_head_round, inner_head_rounds_started.
    intros [= <-]. split; [done|].
    intros i (x & Hx & Hshown). cbn [hidden_word]. rewrite Hlook.
    case_decide as Hg; [|done]. rewrite Hx. f_equal.
    destruct (Forall2_lookup_lr _ _ _ i x (lower line) Hmask Hx Hg); done.
  - rewrite emit_fst, inner_head_round, inner_head_rounds_started.
    intros [= <-]. split; [done|]. by intros i _.
Qed.

Variable words : list string.
Variable rand : nat → nat.

Lemma inv_round c k :
  inv words c → rounds_started c = Some k → is_Some (round_of c).
Proof. destruct c as [| |[] ? [] ?|]; simpl; by eauto. Qed.

Lemma inv_round_ok c r : inv words c → round_of c = Some r → round_ok r.
Proof.
  destruct c as [| |[] ? [] ?|]; simpl; intros Hc [= <-];
    destruct_and?; done.
Qed.

(** One line of input: the round counter does not go down, and where it
    stays the mask has kept its letters. *)
Lemma step_rounds c line k k1 :
  inv words c →
  rounds_started c = Some k →
  rounds_started (step words rand c line).1 = Some k1 →
  k ≤ k1 ∧
  (k1 = k → ∀ r r1, round_of c = Some r →
     round_of (step words rand c line).1 = Some r1 → mask_grows r r1).
Proof.
  intros Hc. destruct c as [s r0 k0|s r0 k0|e s r0 k0|e s]; simpl.
  - intros [= ->] Hk1.
    destruct (round_of (guess_step s r0 k line).1) as [r1|] eqn:Hr1.
    + destruct (guess_step_mask s r0 k line r1) as [Hk Hgrow];
        [by destruct Hc as (_ & _ & ? & _)|done|].
      rewrite Hk in Hk1. injection Hk1 as <-. split; [done|].
      by intros _ r r1' [= <-] [= <-].
    + split; [|by intros _ r r1 _ ?].
      pose proof (guess_step_inv words s r0 k line Hc) as Hinv.
      destruct (inv_round _ _ Hinv Hk1) as [r1 Hsome]. congruence.
  - intros [= ->]. destruct Hc as (Hw & Hs & Hok & Hsolved).
    unfold again_step, outer_head.
    destruct (decide (lower line ≠ "y")).
    + simpl. intros [= <-]. split; [done|].
      intros _ r r1 [= <-] [= <-]. apply mask_grows_refl.
    + rewrite decide_True by done.
      destruct (random_choice_Some words (rand k) Hw) as [w ->].
      rewrite inner_head_rounds_started. intros [= <-]. split; [lia|lia].
  - intros [= ->] [= <-]. split; [done|].
    intros _ r r1 -> [= <-]. apply mask_grows_refl.
  - done.
Qed.

Lemma run_rounds c inputs k k' :
  inv words c →
  rounds_started c = Some k →
  rounds_started (run words rand c inputs).1 = Some k' →
  k ≤ k' ∧
  (k' = k → ∀ r r', round_of c = Some r →
     round_of (run words rand c inputs).1 = Some r' → mask_grows r r').
Proof.
  revert c k. induction inputs as [|line rest IH]; intros c k Hc Hk.
  - simpl. rewrite Hk. intros [= <-]. split; [done|].
    intros _ r r' -> [= <-]. apply mask_grows_refl.
  - rewrite run_fst_cons. intros Hk'.
    pose proof (step_inv words rand c line Hc) as Hc1.
    destruct (rounds_started (step words rand c line).1) as [k1|] eqn:Hk1.
    + destruct (step_rounds c line k k1 Hc Hk Hk1) as [Hle Hstep].
      destruct (IH _ k1 Hc1 Hk1 Hk') as [Hle' Hrest].
      split; [lia|]. intros -> r r' Hr Hr'.
      assert (k1 = k) as -> by lia.
      destruct (inv_round _ _ Hc1 Hk1) as [r1 Hr1].
      eapply mask_grows_trans; [by eapply Hstep|by eapply Hrest].
    + destruct (step words rand c line).1 as [| | |e s] eqn:Hc1'; try done.
      rewrite run_stopped in Hk' by (by intros []). done.
Qed.
End mask_facts.

(** C8: in every configuration a session reaches, the mask is as long as
    the secret word; and for as long as the program stays in a round,
    whatever is typed, every position of the mask that shows a letter goes
    on showing it. *)
Theorem mask_invariant (words : list string) (rand : nat → nat) :
  (∀ c r, reachable words rand c → round_of c = Some r →
     length (hidden_word r) = length (word_letters r)
     ∧ length (hidden_word r) = len (word r))
  ∧ (∀ c inputs r r', reachable words rand c → round_of c = Some r →
       round_of (run words rand c inputs).1 = Some r' →
       rounds_started (run words rand c inputs).1 = rounds_started c →
       mask_grows r r').
Proof.
  split.
  - intros c r Hc%reachable_inv Hr.
    destruct (inv_round_ok words c r Hc Hr) as [Hletters Hmask].
    apply Forall2_length in Hmask. split; [done|].
    by rewrite Hmask, Hletters, letters_length.
  - intros c inputs r r' Hc%reachable_inv Hr Hr' Hsame.
    destruct (rounds_started c) as [k|] eqn:Hk.
    + destruct (run_rounds words rand c inputs k k Hc Hk Hsame) as [_ Hgrow].
      by eapply Hgrow.
    + destruct c; simplify_eq/=.
Qed.

Lemma mask_invariant_witness :
  length (hidden_word (new_round "garden")) = len "garden".
Proof.
  refine (proj2 (proj1 (mask_invariant ["garden"] (λ _, 0))
                   (guessing_game ["garden"] (λ _, 0) []).1
                   (new_round "garden") _ _)).
  - by exists [].
  - reflexivity.
Defined.

Section solved_facts.
Implicit Types (s : Z) (r : round) (k : nat).

(** The round is announced solved only together with the continuation
    prompt. *)
Lemma inner_head_solved s r k :
  at_loop_head s r → PrintSolved ∈ (inner_head s r k).2 →
  (inner_head s r k).1 = NeedAgain s r k
  ∧ (0 < s)%Z
  ∧ PromptAgain ∈ (inner_head s r k).2.
Proof.
  intros (Hs & Hok & Hsolved). unfold inner_head, post_round.
  destruct (loop_guard s r).
  { simpl. rewrite !elem_of_cons, elem_of_nil. intros [?|[?|[]]]; done. }
  destruct (decide (hidden_word r = word_letters r)) as [Heq|Hne].
  - rewrite decide_True by auto. simpl. intros _.
    split_and!; [done|auto|]. rewrite !elem_of_cons. auto.
  - case_decide; simpl; rewrite !elem_of_cons, elem_of_nil;
      intros [?|[?|[?|[]]]]; done.
Qed.
End solved_facts.

(** C10: in every configuration a session reaches, the score is not
    negative; a round whose mask equals the secret word has a score of at
    least 1 and stands at the continuation prompt, or just past it after
    the player declined; a score of 0 is met only where the round ended
    Exhausted and the session with it.  Whenever a line of input makes the
    program announce that the word is solved, it goes on to the
    continuation prompt with a score of at least 1. *)
Theorem solved_needs_positive_score (words : list string) (rand : nat → nat) :
  (∀ c r, reachable words rand c → round_of c = Some r →
     (0 ≤ score_of c)%Z
     ∧ (hidden_word r = word_letters r →
          (1 ≤ score_of c)%Z
          ∧ ∃ k, c = NeedAgain (score_of c) r k
                 ∨ c = Finished Declined (score_of c) (Some r) k)
     ∧ (score_of c = 0%Z →
          outcome_of r = Exhausted
          ∧ ∃ k, c = Finished ScoreZero 0 (Some r) k))
  ∧ (∀ c line, reachable words rand c →
       PrintSolved ∈ (step words rand c line).2 →
       PromptAgain ∈ (step words rand c line).2
       ∧ (1 ≤ score_of (step words rand c line).1)%Z
       ∧ ∃ s r k, (step words rand c line).1 = NeedAgain s r k).
Proof.
  split.
  - intros c r Hc%reachable_inv Hr.
    destruct c as [s r0 k|s r0 k|e s r0 k|e s]; simpl in Hr, Hc |- *.
    + injection Hr as ->. destruct Hc as (Hw & Hs & Hok & Hopen).
      split_and!; [lia|by intros ?|intros ?; lia].
    + injection Hr as ->. destruct Hc as (Hw & Hs & Hok & Hsolved).
      split_and!; [lia| |intros ?; lia].
      intros _. split; [lia|]. exists k. by left.
    + subst r0. destruct e; destruct Hc as (Hs & Hok & Hmask).
      * split_and!; [lia|by intros ?|intros ?; lia].
      * split_and!; [lia| |intros ?; lia].
        intros _. split; [lia|]. exists k. by right.
      * subst s. split_and!; [lia|by intros ?|].
        intros _. split; [|by exists k].
        unfold outcome_of. by rewrite decide_False.
    + done.
  - intros c line Hc%reachable_inv.
    destruct c as [s r k|s r k|e s r k|e s]; simpl.
    + destruct Hc as (Hw & Hs & Hok & Hopen). unfold guess_step.
      assert (Hhead : at_loop_head s r) by (split_and!; [lia|done..]).
      destruct (decide (lower line = "!")).
      { simpl. rewrite list_elem_of_singleton. done. }
      destruct (negb _ || negb _).
      { rewrite emit_fst, emit_snd, elem_of_app, list_elem_of_singleton.
        intros [?|Hin]; [done|].
        destruct (inner_head_solved s r k Hhead Hin) as (-> & ? & ?).
        split_and!; [apply elem_of_app; by right|simpl; lia|by eauto]. }
      destruct (decide (lower line ∈ guessed_letters r)).
      { rewrite emit_fst, emit_snd, elem_of_app, list_elem_of_singleton.
        intros [?|Hin]; [done|].
        destruct (inner_head_solved s r k Hhead Hin) as (-> & ? & ?).
        split_and!; [apply elem_of_app; by right|simpl; lia|by eauto]. }
      destruct (decide (lower line ∈ word_letters r)).
      * destruct (reveal_Some (word_letters r) (hidden_word r) (lower line))
          as (hidden & -> & Hlen & Hlook);
          [destruct Hok as [_ Hmask]; by eapply Forall2_length|].
        rewrite emit_fst, emit_snd, elem_of_app, list_elem_of_singleton.
        intros [?|Hin]; [done|].
        eapply inner_head_solved in Hin as (-> & ? & ?);
          [|by apply hit_at_loop_head].
        split_and!; [apply elem_of_app; by right|simpl; lia|by eauto].
      * rewrite emit_fst, emit_snd, elem_of_app, list_elem_of_singleton.
        intros [?|Hin]; [done|].
        eapply inner_head_solved in Hin as (-> & ? & ?);
          [|split_and!; [lia|done|done]].
        split_and!; [apply elem_of_app; by right|simpl; lia|by eauto].
    + destruct Hc as (Hw & Hs & Hok & Hsolved).
      unfold again_step, outer_head.
      destruct (decide (lower line ≠ "y")).
      { simpl. rewrite list_elem_of_singleton. done. }
      rewrite decide_True by done.
      destruct (random_choice_Some words (rand k) Hw) as [w ->].
      intros Hin.
      eapply inner_head_solved in Hin as (-> & ? & ?);
        [|split_and!; [lia|apply new_round_ok|done]].
      split_and!; [done|simpl; lia|by eauto].
    + intros Hin. by apply elem_of_nil in Hin.
    + intros Hin. by apply elem_of_nil in Hin.
Qed.

Lemma solved_needs_positive_score_witness :
  (1 ≤ score_of
         (guessing_game ["garden"] (λ _, 0%nat)
            ["g"; "a"; "x"; "r"; "d"; "e"; "n"]).1)%Z.
Proof.
  refine (proj1 (proj1 (proj2 (proj1
            (solved_needs_positive_score ["garden"] (λ _, 0%nat))
            (guessing_game ["garden"] (λ _, 0%nat)
               ["g"; "a"; "x"; "r"; "d"; "e"; "n"]).1
            (Round "garden" (letters "garden")
               ["g"; "a"; "x"; "r"; "d"; "e"; "n"] (letters "garden"))
            _ _)) _)).
  - by exists ["g"; "a"; "x"; "r"; "d"; "e"; "n"].
  - vm_compute. reflexivity.
  - reflexivity.
Defined.

(** * Further properties of the frequency ranker *)

Section ranker_more.
Context `{A : ArgSort}.
Implicit Types (d l : dict) (tokens nouns : list string).

(** A dict is its keys, in order, and what they map to. *)
Lemma dict_ext d d' :
  keys d = keys d' → NoDup (keys d) →
  (∀ k, dict_get d k = dict_get d' k) → d = d'.
Proof.
  unfold keys. revert d'.
  induction d as [|[k v] d IH]; intros [|[k' v'] d'] Hkeys Hnd Hget;
    simpl in *; try done.
  injection Hkeys as -> Hkeys.
  apply NoDup_cons in Hnd as [Hk Hnd].
  pose proof (Hget k') as Hv. rewrite !decide_True in Hv by done.
  injection Hv as <-. f_equal. apply IH; [done..|].
  intros k. specialize (Hget k). destruct (decide (k = k')) as [->|Hne].
  - assert (Hk' : k' ∉ keys d') by (intros Hin; apply Hk; by rewrite Hkeys).
    apply dict_get_None in Hk, Hk'. congruence.
  - done.
Qed.

Lemma indices_list d :
  d = (λ i, default ("", 0) (d !! i)) <$> seq 0 (length d).
Proof.
  apply list_eq. intros i. rewrite list_lookup_fmap.
  destruct (decide (i < length d)) as [Hi|Hi].
  - rewrite lookup_seq_lt by done. simpl.
    destruct (lookup_lt_is_Some_2 d i Hi) as [kv ->]. done.
  - rewrite lookup_seq_ge by lia. by rewrite lookup_ge_None_2 by lia.
Qed.

Lemma picked_list d (idx : list nat) l :
  Forall2 (λ i kv, d !! i = Some kv) idx l →
  l = (λ i, default ("", 0) (d !! i)) <$> idx.
Proof. induction 1 as [|i kv idx l Hi _ IH]; simpl; [done|]. by rewrite Hi, IH. Qed.

(** Ranking rearranges the dict and loses nothing. *)
Lemma sort_dict_Permutation d :
  NoDup (keys d) → ∃ l, sort_dict d = Some l ∧ l ≡ₚ d.
Proof.
  intros Hnd. destruct (sort_dict_Some d Hnd) as (l & Hl & Hpick).
  exists l. split; [done|]. rewrite (picked_list _ _ _ Hpick).
  transitivity ((λ i, default ("", 0) (d !! i)) <$> seq 0 (length d)).
  - by rewrite sorted_value_index_perm.
  - by rewrite <-indices_list.
Qed.

Lemma sort_dict_descending d l p q k1 c1 k2 c2 :
  NoDup (keys d) → sort_dict d = Some l → p < q →
  l !! p = Some (k1, c1) → l !! q = Some (k2, c2) → c2 ≤ c1.
Proof.
  intros Hnd Hl Hpq Hp Hq.
  destruct (sort_dict_Some d Hnd) as (l' & Hl' & Hpick).
  assert (l' = l) as -> by congruence.
  destruct (Forall2_lookup_r _ _ _ _ _ Hpick Hp) as (i1 & Hi1 & Hd1).
  destruct (Forall2_lookup_r _ _ _ _ _ Hpick Hq) as (i2 & Hi2 & Hd2).
  pose proof (argsort_sorted (values d)) as Hs.
  apply StronglySorted_reverse in Hs. rewrite <-fmap_reverse in Hs.
  fold (sorted_value_index d) in Hs.
  rewrite <-(values_lookup _ _ _ _ Hd1), <-(values_lookup _ _ _ _ Hd2).
  eapply (StronglySorted_lookup (flip le) _ p q); [exact Hs|done|..].
  - by rewrite list_lookup_fmap, Hi1.
  - by rewrite list_lookup_fmap, Hi2.
Qed.

Lemma count_nouns_keys_elem tokens nouns k :
  k ∈ keys (count_nouns tokens nouns) ↔ k ∈ nouns.
Proof.
  pose proof (count_nouns_get tokens nouns k) as Hget.
  pose proof (dict_get_None (count_nouns tokens nouns) k) as Hnone.
  destruct (decide (k ∈ nouns)) as [Hin|Hout].
  - split; [done|]. intros _.
    destruct (decide (k ∈ keys (count_nouns tokens nouns))) as [|Hk]; [done|].
    apply Hnone in Hk. congruence.
  - split; [|done]. intros Hk. exfalso.
    assert (dict_get (count_nouns tokens nouns) k = None) as Hn by done.
    by apply Hnone in Hn.
Qed.

Lemma count_nouns_keys_Permutation tokens nouns :
  keys (count_nouns tokens nouns) ≡ₚ remove_dups nouns.
Proof.
  apply NoDup_Permutation.
  - apply count_nouns_NoDup.
  - apply NoDup_remove_dups.
  - intros k. by rewrite count_nouns_keys_elem, elem_of_remove_dups.
Qed.

(** The ranked dict behind the output of [make_dict]. *)
Lemma make_dict_ranked tokens nouns :
  ∃ l, sort_dict (count_nouns tokens nouns) = Some l
       ∧ make_dict tokens nouns = Some (take 50 (keys l))
       ∧ keys l ≡ₚ remove_dups nouns.
Proof.
  destruct (sort_dict_Permutation (count_nouns tokens nouns))
    as (l & Hl & Hperm); [apply count_nouns_NoDup|].
  exists l. split_and!; [done| |].
  - unfold make_dict. by rewrite Hl.
  - unfold keys at 1. rewrite Hperm. apply count_nouns_keys_Permutation.
Qed.
End ranker_more.

(** ** The ranking across runs *)

Section across_runs.
Context `{A : ArgSort}.
Implicit Types (d l : dict) (tokens nouns : list string).






End across_runs.



Lemma seed_from_keys (d : dict) (nouns : list string) :
  NoDup (keys d ++ nouns) →
  keys (foldl (λ d noun, dict_set d noun 0) d nouns) = keys d ++ nouns.
Proof.
  revert d. induction nouns as [|n nouns IH]; intros d Hnd; cbn [foldl].
  - by rewrite app_nil_r.
  - assert (Hn : n ∉ keys d).
    { apply NoDup_app in Hnd as (_ & Hdis & _). intros Hin.
      apply (Hdis n Hin). apply list_elem_of_here. }
    rewrite IH; rewrite dict_set_fresh by done; unfold keys in *;
      rewrite fmap_app; simpl; by rewrite <-app_assoc.
Qed.

(** X1: the dict iterates over a duplicate-free noun list in the order of
    the list, and counting the tokens does not reorder it. *)
Theorem count_nouns_keeps_order (tokens nouns : list string) :
  NoDup nouns → keys (count_nouns tokens nouns) = nouns.
Proof.
  intros Hnd. unfold count_nouns, seed_nouns.
  rewrite count_tokens_keys, seed_from_keys; done.
Qed.

Lemma count_nouns_keeps_order_witness :
  keys (count_nouns ["dog"; "cat"; "dog"] ["cat"; "dog"; "bird"])
    = ["cat"; "dog"; "bird"].
Proof.
  apply (count_nouns_keeps_order ["dog"; "cat"; "dog"] ["cat"; "dog"; "bird"]).
  apply (bool_decide_unpack _). vm_compute. exact I.
Defined.

(** ** Ties and the order of the noun list *)

Section tied_runs.
Context `{A : ArgSort}.
Implicit Types (tokens nouns : list string).



End tied_runs.


(** X2: the output of [make_dict] has no duplicates, holds only nouns of
    the list, and has min(50, number of distinct nouns) entries; with at
    most 50 distinct nouns it holds every one of them. *)
Theorem make_dict_selection (A : ArgSort) (tokens nouns : list string) :
  ∃ out, make_dict tokens nouns = Some out
         ∧ NoDup out
         ∧ (∀ k, k ∈ out → k ∈ nouns)
         ∧ length out = 50 `min` length (remove_dups nouns)
         ∧ (length (remove_dups nouns) ≤ 50 → out ≡ₚ remove_dups nouns).
Proof.
  destruct (make_dict_ranked tokens nouns) as (l & Hl & Hout & Hperm).
  exists (take 50 (keys l)). split_and!; [done| | | |].
  - apply (sublist_NoDup _ (keys l)); [|apply sublist_take].
    rewrite Hperm. apply NoDup_remove_dups.
  - intros k Hk. apply elem_of_take in Hk as (i & Hi & _).
    apply list_elem_of_lookup_2 in Hi. rewrite Hperm in Hi.
    by rewrite elem_of_remove_dups in Hi.
  - by rewrite length_take, Hperm.
  - intros Hfew. rewrite take_ge; [done|]. by rewrite Hperm.
Qed.

Lemma make_dict_selection_witness :
  ∃ out, make_dict (A:=stable_argsort) ["dog"] ["cat"; "dog"; "cat"] = Some out
         ∧ out ≡ₚ remove_dups ["cat"; "dog"; "cat"].
Proof.
  destruct (make_dict_selection stable_argsort ["dog"] ["cat"; "dog"; "cat"])
    as (out & Hout & _ & _ & _ & Hall).
  exists out. split; [done|]. apply Hall. vm_compute. lia.
Defined.

(** X3: the cut at 50 keeps the most frequent nouns: a noun left out
    occurs no more often among the tokens than any noun kept. *)
Theorem make_dict_keeps_most_frequent (A : ArgSort)
    (tokens nouns out : list string) (kept dropped : string) :
  make_dict tokens nouns = Some out →
  kept ∈ out → dropped ∈ nouns → dropped ∉ out →
  occurrences dropped tokens ≤ occurrences kept tokens.
Proof.
  intros Hmake Hkept Hnoun Hdropped.
  destruct (make_dict_ranked tokens nouns) as (l & Hl & Hout & Hperm).
  assert (out = take 50 (keys l)) as -> by congruence.
  apply elem_of_take in Hkept as (p & Hp & Hp50).
  assert (Hin : dropped ∈ keys l)
    by (rewrite Hperm; by rewrite elem_of_remove_dups).
  apply list_elem_of_lookup_1 in Hin as [q Hq].
  assert (Hq50 : 50 ≤ q).
  { destruct (decide (50 ≤ q)); [done|]. exfalso. apply Hdropped.
    apply elem_of_take. exists q. split; [done|lia]. }
  unfold keys in Hp, Hq. rewrite list_lookup_fmap in Hp, Hq.
  destruct (l !! p) as [[k1 c1]|] eqn:Hlp; simplify_eq/=.
  destruct (l !! q) as [[k2 c2]|] eqn:Hlq; simplify_eq/=.
  pose proof (count_nouns_NoDup tokens nouns) as Hnd.
  assert (Hle : c2 ≤ c1)
    by (eapply (sort_dict_descending _ l p q); [done|done|lia|done..]).
  destruct (sort_dict_Permutation (count_nouns tokens nouns) Hnd)
    as (l' & Hl' & Hpl).
  assert (l' = l) as -> by congruence.
  assert (Hc : ∀ i k c, l !! i = Some (k, c) → k ∈ nouns →
               c = occurrences k tokens).
  { intros i k c Hi Hk. apply list_elem_of_lookup_2 in Hi.
    rewrite Hpl in Hi. apply list_elem_of_lookup_1 in Hi as [j Hj].
    pose proof (dict_lookup_get _ _ _ _ Hnd Hj) as Hget.
    rewrite count_nouns_get, decide_True in Hget by done. congruence. }
  assert (Hkn : kept ∈ nouns).
  { apply (count_nouns_keys_elem tokens nouns).
    pose proof (list_elem_of_lookup_2 _ _ _ Hlp) as Hin'.
    rewrite Hpl in Hin'. apply list_elem_of_fmap. by exists (kept, c1). }
  by rewrite <-(Hc q dropped c2), <-(Hc p kept c1).
Qed.

Lemma make_dict_keeps_most_frequent_witness :
  occurrences (String (ascii_of_nat 0) "") [String (ascii_of_nat 7) ""]
  ≤ occurrences (String (ascii_of_nat 7) "") [String (ascii_of_nat 7) ""].
Proof.
  destruct (make_dict (A:=stable_argsort) [String (ascii_of_nat 7) ""]
              ((λ n, String (ascii_of_nat n) "") <$> seq 0 51))
    as [out|] eqn:Hout; [|vm_compute in Hout; discriminate].
  apply (make_dict_keeps_most_frequent stable_argsort
           [String (ascii_of_nat 7) ""]
           ((λ n, String (ascii_of_nat n) "") <$> seq 0 51) out).
  - done.
  - vm_compute in Hout. injection Hout as <-.
    apply (bool_decide_unpack _). vm_compute. exact I.
  - apply (bool_decide_unpack _). vm_compute. exact I.
  - vm_compute in Hout. injection Hout as <-.
    apply (bool_decide_unpack _). vm_compute. exact I.
Defined.

(** X4: the ranking depends on the tokens only through the number of
    times each noun occurs among them: their order, and the tokens that
    are no nouns, do not matter. *)
Theorem make_dict_counts_only (A : ArgSort) (tokens tokens' nouns : list string) :
  (∀ noun, noun ∈ nouns → occurrences noun tokens = occurrences noun tokens') →
  make_dict tokens nouns = make_dict tokens' nouns.
Proof.
  intros Hocc. unfold make_dict.
  assert (count_nouns tokens nouns = count_nouns tokens' nouns) as ->; [|done].
  apply dict_ext.
  - unfold count_nouns. by rewrite !count_tokens_keys.
  - apply count_nouns_NoDup.
  - intros k. rewrite !count_nouns_get. case_decide; [|done].
    by rewrite Hocc.
Qed.

Lemma make_dict_counts_only_witness :
  make_dict (A:=stable_argsort) ["cat"; "bird"; "dog"; "cat"] ["cat"; "dog"]
  = make_dict (A:=stable_argsort) ["dog"; "cat"; "cat"] ["cat"; "dog"].
Proof.
  apply (make_dict_counts_only stable_argsort).
  intros noun Hin. rewrite !elem_of_cons, elem_of_nil in Hin.
  destruct Hin as [->|[->|[]]]; reflexivity.
Defined.

(** * Further properties of the guessing game *)

Section guess_facts.
Implicit Types (s : Z) (r : round) (k : nat) (g : string).

Lemma lower_char_idemp c : lower_char (lower_char c) = lower_char c.
Proof. destruct c as [[] [] [] [] [] [] [] []]; reflexivity. Qed.

Lemma lower_idemp (str : string) : lower (lower str) = lower str.
Proof. induction str; simpl; [done|]. by rewrite lower_char_idemp, IHstr. Qed.

Lemma letters_len x w : x ∈ letters w → len x = 1.
Proof.
  induction w as [|c w IH]; simpl.
  - by intros ?%elem_of_nil.
  - rewrite elem_of_cons. intros [->|?]; [done|auto].
Qed.

Lemma fresh_letter_valid r line :
  fresh_letter r (lower line) → valid_guess (lower line).
Proof.
  intros (Hone & Halpha & _). split_and!; [done..|]. apply lower_idemp.
Qed.

(** What an answer to the prompt of line 175 does to the score and the
    round: nothing, a hit, or a miss. *)
Lemma guess_step_cases s r k line :
  length (hidden_word r) = length (word_letters r) →
  let g := lower line in
  let c' := (guess_step s r k line).1 in
  (score_of c' = s ∧ round_of c' = Some r)
  ∨ (fresh_letter r g ∧ g ∈ word_letters r ∧ score_of c' = (s + 1)%Z
     ∧ ∃ hidden,
         (∀ i, hidden !! i =
               if decide (word_letters r !! i = Some g) then Some g
               else hidden_word r !! i)
         ∧ round_of c' =
             Some (Round (word r) (word_letters r)
                     (guessed_letters r ++ [g]) hidden))
  ∨ (fresh_letter r g ∧ (g ∉ word_letters r) ∧ score_of c' = (s - 1)%Z
     ∧ round_of c' =
         Some (Round (word r) (word_letters r)
                 (guessed_letters r ++ [g]) (hidden_word r))).
Proof.
  intros Hlen g c'. subst g c'. unfold guess_step.
  destruct (decide (lower line = "!")); [by left|].
  destruct (negb (len (lower line) =? 1) || negb (isalpha (lower line)))
    eqn:Hvalid.
  { left. by rewrite emit_fst, inner_head_score, inner_head_round. }
  apply orb_false_iff in Hvalid as [Hone Halpha].
  apply negb_false_iff in Hone, Halpha. apply Nat.eqb_eq in Hone.
  destruct (decide (lower line ∈ guessed_letters r)).
  { left. by rewrite emit_fst, inner_head_score, inner_head_round. }
  assert (Hfresh : fresh_letter r (lower line)) by done.
  destruct (decide (lower line ∈ word_letters r)).
  - right. left.
    destruct (reveal_Some (word_letters r) (hidden_word r) (lower line) Hlen)
      as (hidden & -> & _ & Hlook).
    rewrite emit_fst, inner_head_score, inner_head_round.
    split_and!; [done..|]. by exists hidden.
  - right. right.
    by rewrite emit_fst, inner_head_score, inner_head_round.
Qed.

Lemma mask_of_nil (wl : list string) : mask_of wl [] = (λ _, "_ ") <$> wl.
Proof.
  unfold mask_of. apply list_fmap_ext. intros i w _.
  rewrite decide_False; [done|]. apply not_elem_of_nil.
Qed.

Lemma mask_of_hit (wl guessed hidden : list string) g :
  (∀ i, hidden !! i =
        if decide (wl !! i = Some g) then Some g
        else mask_of wl guessed !! i) →
  hidden = mask_of wl (guessed ++ [g]).
Proof.
  intros Hlook. apply list_eq. intros i. rewrite Hlook. unfold mask_of.
  rewrite !list_lookup_fmap. destruct (wl !! i) as [w|] eqn:Hw; simpl.
  - destruct (decide (Some w = Some g)) as [Hg|Hg].
    + injection Hg as ->. rewrite decide_True; [done|].
      apply elem_of_app. right. apply list_elem_of_here.
    + f_equal. destruct (decide (w ∈ guessed)) as [Hin|Hout].
      * rewrite decide_True; [done|]. apply elem_of_app. by left.
      * rewrite decide_False; [done|]. rewrite elem_of_app.
        intros [?|Heq%list_elem_of_singleton]; [done|]. congruence.
  - done.
Qed.

Lemma mask_of_miss (wl guessed : list string) g :
  g ∉ wl → mask_of wl guessed = mask_of wl (guessed ++ [g]).
Proof.
  intros Hg. unfold mask_of. apply list_fmap_ext. intros i w Hw.
  destruct (decide (w ∈ guessed)) as [Hin|Hout].
  - rewrite decide_True; [done|]. apply elem_of_app. by left.
  - rewrite decide_False; [done|]. rewrite elem_of_app.
    intros [?|Heq%list_elem_of_singleton]; [done|]. subst w.
    apply Hg. by eapply list_elem_of_lookup_2.
Qed.

Lemma mask_of_length (wl guessed : list string) :
  length (mask_of wl guessed) = length wl.
Proof. unfold mask_of. by rewrite length_fmap. Qed.

Lemma new_round_facts words n w :
  random_choice n words = Some w → round_facts words (new_round w).
Proof.
  intros Hw. split_and!; simpl.
  - destruct words; [done|]. by eapply list_elem_of_lookup_2.
  - done.
  - apply NoDup_nil_2.
  - constructor.
  - by rewrite mask_of_nil.
Qed.

Lemma guess_step_facts words s r k line r1 :
  round_facts words r →
  round_of (guess_step s r k line).1 = Some r1 →
  round_facts words r1.
Proof.
  intros (Hword & Hletters & Hnd & Hvalid & Hmask) Hr1.
  destruct (guess_step_cases s r k line)
    as [[_ Hr]|[(Hfresh & Hin & _ & hidden & Hlook & Hr)
               |(Hfresh & Hout & _ & Hr)]];
    [by rewrite Hmask, mask_of_length| | |];
    rewrite Hr in Hr1; injection Hr1 as <-; [done| |].
  - split_and!; simpl; [done..| | |].
    + apply NoDup_app. split_and!; [done| |apply NoDup_singleton].
      intros x Hx ->%list_elem_of_singleton. by destruct Hfresh as (_ & _ & ?).
    + apply Forall_app. split; [done|]. constructor; [|constructor].
      by apply (fresh_letter_valid r).
    + apply mask_of_hit. intros i. rewrite Hlook. by rewrite Hmask.
  - split_and!; simpl; [done..| | |].
    + apply NoDup_app. split_and!; [done| |apply NoDup_singleton].
      intros x Hx ->%list_elem_of_singleton. by destruct Hfresh as (_ & _ & ?).
    + apply Forall_app. split; [done|]. constructor; [|constructor].
      by apply (fresh_letter_valid r).
    + rewrite Hmask. by apply mask_of_miss.
Qed.
End guess_facts.

Section session_more.
Variable words : list string.
Variable rand : nat → nat.

Lemma step_round_facts c line :
  inv_round_facts words c →
  inv_round_facts words (step words rand c line).1.
Proof.
  unfold inv_round_facts.
  destruct c as [s r k|s r k|e s r k|e s]; simpl; [| |done..].
  - intros Hr. destruct (round_of (guess_step s r k line).1) eqn:Hr1; [|done].
    by eapply guess_step_facts.
  - intros Hr. unfold again_step, outer_head.
    destruct (decide (lower line ≠ "y")); [done|].
    destruct (decide (0 < s)%Z); [|done].
    destruct (random_choice (rand k) words) as [w|] eqn:Hw; [|done].
    rewrite inner_head_round. by eapply new_round_facts.
Qed.

Lemma run_round_facts c inputs :
  inv_round_facts words c →
  inv_round_facts words (run words rand c inputs).1.
Proof.
  revert c. induction inputs as [|line rest IH]; intros c Hc; [done|].
  rewrite run_fst_cons. by apply IH, step_round_facts.
Qed.

Lemma reachable_round_facts c r :
  reachable words rand c → round_of c = Some r → round_facts words r.
Proof.
  intros [inputs <-] Hr.
  assert (Hinv : inv_round_facts words (guessing_game words rand inputs).1).
  { unfold guessing_game. rewrite emit_fst. apply run_round_facts.
    unfold inv_round_facts, start, outer_head.
    rewrite emit_fst, decide_True by done.
    destruct (random_choice (rand 0) words) as [w|] eqn:Hw; [|done].
    rewrite inner_head_round. by eapply new_round_facts. }
  unfold inv_round_facts in Hinv. by rewrite Hr in Hinv.
Qed.
End session_more.

(** The mask equals the word exactly when every letter of the word has
    been guessed. *)
Lemma mask_of_solved (wl guessed : list string) :
  (∀ w, w ∈ wl → w ≠ "_ ") →
  mask_of wl guessed = wl ↔ ∀ w, w ∈ wl → w ∈ guessed.
Proof.
  intros Hletters. unfold mask_of. split.
  - intros Heq w Hw. apply list_elem_of_lookup_1 in Hw as [i Hi].
    pose proof (f_equal (λ l, l !! i) Heq) as Hi'. simpl in Hi'.
    rewrite list_lookup_fmap, Hi in Hi'. simpl in Hi'.
    destruct (decide (w ∈ guessed)) as [|Hout]; [done|].
    injection Hi' as Hi'. exfalso. apply (Hletters w); [|done].
    by eapply list_elem_of_lookup_2.
  - intros Hall. rewrite <-(list_fmap_id wl) at 2.
    apply list_fmap_ext. intros i w Hw. rewrite decide_True; [done|].
    apply Hall. by eapply list_elem_of_lookup_2.
Qed.

Lemma letters_not_placeholder word0 w : w ∈ letters word0 → w ≠ "_ ".
Proof. intros Hw%letters_len ->. done. Qed.

Lemma round_facts_solved words r :
  round_facts words r →
  hidden_word r = word_letters r ↔
    ∀ w, w ∈ word_letters r → w ∈ guessed_letters r.
Proof.
  intros (_ & Hletters & _ & _ & ->). apply mask_of_solved.
  rewrite Hletters. apply letters_not_placeholder.
Qed.

(** X5: in every configuration a session reaches, the mask shows exactly
    the letters of the word that are among the guessed letters, and it
    equals the word exactly when every letter of the word has been
    guessed. *)
Theorem mask_shows_guessed_letters (words : list string) (rand : nat → nat)
    (c : config) (r : round) :
  reachable words rand c → round_of c = Some r →
  hidden_word r = mask_of (word_letters r) (guessed_letters r)
  ∧ (hidden_word r = word_letters r ↔
       ∀ w, w ∈ word_letters r → w ∈ guessed_letters r).
Proof.
  intros Hc Hr.
  pose proof (reachable_round_facts words rand c r Hc Hr) as Hfacts.
  split; [by destruct Hfacts as (_ & _ & _ & _ & ?)|].
  by eapply round_facts_solved.
Qed.

Lemma mask_shows_guessed_letters_witness :
  ["g"; "_ "; "_ "; "d"; "_ "; "_ "] = mask_of (letters "garden") ["g"; "x"; "d"].
Proof.
  refine (proj1 (mask_shows_guessed_letters ["garden"] (λ _, 0)
                   (guessing_game ["garden"] (λ _, 0) ["g"; "x"; "d"]).1
                   (Round "garden" (letters "garden") ["g"; "x"; "d"]
                      ["g"; "_ "; "_ "; "d"; "_ "; "_ "]) _ _)).
  - by exists ["g"; "x"; "d"].
  - vm_compute. reflexivity.
Defined.

(** X6: on a non-empty vocabulary the game never raises: whatever is
    typed, the program is in a round whose secret word is a word of the
    vocabulary. *)
Theorem secret_word_from_vocabulary (words : list string) (rand : nat → nat)
    (c : config) :
  words ≠ [] → reachable words rand c →
  ∃ r, round_of c = Some r ∧ word r ∈ words
       ∧ word_letters r = letters (word r).
Proof.
  intros Hw Hc. pose proof (reachable_inv words rand c Hc) as Hinv.
  destruct (round_of c) as [r|] eqn:Hr.
  - exists r. split; [done|].
    destruct (reachable_round_facts words rand c r Hc Hr) as (? & ? & _).
    done.
  - destruct c as [| |[] ? [] ?|]; simplify_eq/=; by destruct Hinv.
Qed.

Lemma secret_word_from_vocabulary_witness :
  ∃ r, round_of (guessing_game ["forest"; "garden"] (λ _, 3) ["a"; "y"]).1
       = Some r
       ∧ word r ∈ ["forest"; "garden"]
       ∧ word_letters r = letters (word r).
Proof.
  apply (secret_word_from_vocabulary ["forest"; "garden"] (λ _, 3)).
  - discriminate.
  - by exists ["a"; "y"].
Defined.

(** X7: a secret word with a character that is not a lower-case letter
    cannot be solved: in every configuration a session reaches in a round
    on such a word, the mask differs from the word. *)
Theorem unsolvable_word (words : list string) (rand : nat → nat)
    (c : config) (r : round) (x : string) :
  reachable words rand c → round_of c = Some r →
  x ∈ letters (word r) → isalpha x = false ∨ lower x ≠ x →
  hidden_word r ≠ word_letters r.
Proof.
  intros Hc Hr Hx Hbad Hsolved.
  pose proof (reachable_round_facts words rand c r Hc Hr) as Hfacts.
  pose proof (proj1 (round_facts_solved words r Hfacts) Hsolved) as Hall.
  destruct Hfacts as (_ & Hletters & _ & Hvalid & _).
  rewrite Forall_forall in Hvalid.
  destruct (Hvalid x) as (_ & Halpha & Hlower).
  - apply Hall. by rewrite Hletters.
  - destruct Hbad; congruence.
Qed.

Lemma unsolvable_word_witness :
  ["_ "; "a"; "r"; "d"; "e"; "n"] ≠ letters "Garden".
Proof.
  refine (unsolvable_word ["Garden"] (λ _, 0)
            (guessing_game ["Garden"] (λ _, 0) ["g"; "a"; "r"; "d"; "e"; "n"]).1
            (Round "Garden" (letters "Garden") ["g"; "a"; "r"; "d"; "e"; "n"]
               ["_ "; "a"; "r"; "d"; "e"; "n"]) "G" _ _ _ _).
  - by exists ["g"; "a"; "r"; "d"; "e"; "n"].
  - vm_compute. reflexivity.
  - simpl. apply list_elem_of_here.
  - right. vm_compute. discriminate.
Defined.

Section same_round.
Variable words : list string.
Variable rand : nat → nat.
Variable R : relation round.
Context `{!Reflexive R, !Transitive R}.
Hypothesis guess_step_R : ∀ s r k line r1,
  round_ok r → round_of (guess_step s r k line).1 = Some r1 → R r r1.

(** One line of input that leaves the round counter as it is relates the
    round before to the round after. *)
Lemma step_same_round c line k k1 :
  inv words c →
  rounds_started c = Some k →
  rounds_started (step words rand c line).1 = Some k1 →
  k ≤ k1 ∧
  (k1 = k → ∀ r r1, round_of c = Some r →
     round_of (step words rand c line).1 = Some r1 → R r r1).
Proof.
  intros Hc Hk Hk1.
  destruct (step_rounds words rand c line k k1 Hc Hk Hk1) as [Hle _].
  split; [done|]. intros -> r r1 Hr Hr1.
  destruct c as [s r0 k0|s r0 k0|e s r0 k0|e s]; simplify_eq/=.
  - destruct Hc as (_ & _ & Hok & _). by eapply guess_step_R.
  - destruct Hc as (Hw & Hs & Hok & Hsolved).
    unfold again_step, outer_head in Hk1, Hr1.
    destruct (decide (lower line ≠ "y")); [by simplify_eq/=|].
    rewrite decide_True in Hk1 by done.
    destruct (random_choice_Some words (rand k) Hw) as [w Hw'].
    rewrite Hw', inner_head_rounds_started in Hk1. injection Hk1. lia.
  - done.
Qed.

Lemma run_same_round c inputs k r r' :
  inv words c →
  rounds_started c = Some k →
  rounds_started (run words rand c inputs).1 = Some k →
  round_of c = Some r →
  round_of (run words rand c inputs).1 = Some r' →
  R r r'.
Proof.
  revert c r. induction inputs as [|line rest IH]; intros c r Hc Hk Hk' Hr Hr'.
  - simpl in Hr'. by simplify_eq.
  - rewrite run_fst_cons in Hk', Hr'.
    pose proof (step_inv words rand c line Hc) as Hc1.
    destruct (rounds_started (step words rand c line).1) as [k1|] eqn:Hk1.
    + destruct (step_same_round c line k k1 Hc Hk Hk1) as [Hle Hstep].
      destruct (run_rounds words rand _ rest k1 k Hc1 Hk1 Hk') as [Hle' _].
      assert (k1 = k) as -> by lia.
      destruct (inv_round words _ _ Hc1 Hk1) as [r1 Hr1].
      transitivity r1; [by eapply Hstep|by eapply IH].
    + destruct (step words rand c line).1 as [| | |e s] eqn:Hc1'; try done.
      rewrite run_stopped in Hk' by (by intros []). done.
Qed.
End same_round.

(** X8: the guessed letters of a round are single lower-case letters, each
    kept once, and for as long as the program stays in the round the list
    only grows at its end. *)
Theorem guessed_letters_grow (words : list string) (rand : nat → nat) :
  (∀ c r, reachable words rand c → round_of c = Some r →
     NoDup (guessed_letters r) ∧ Forall valid_guess (guessed_letters r))
  ∧ (∀ c inputs r r', reachable words rand c → round_of c = Some r →
       round_of (run words rand c inputs).1 = Some r' →
       rounds_started (run words rand c inputs).1 = rounds_started c →
       guessed_letters r `prefix_of` guessed_letters r').
Proof.
  split.
  - intros c r Hc Hr.
    by destruct (reachable_round_facts words rand c r Hc Hr)
      as (_ & _ & ? & ? & _).
  - intros c inputs r r' Hc%reachable_inv Hr Hr' Hsame.
    destruct (rounds_started c) as [k|] eqn:Hk;
      [|destruct c; simplify_eq/=].
    set (R := λ r r' : round,
                guessed_letters r `prefix_of` guessed_letters r').
    assert (Hrefl : Reflexive R) by (intros r1; unfold R; reflexivity).
    assert (Htrans : Transitive R)
      by (intros r1 r2 r3 H12 H23; unfold R in *; by etrans).
    apply (run_same_round words rand R) with c inputs k; try done.
    unfold R. intros s r0 k0 line r1 [_ Hmask] Hr1.
    destruct (guess_step_cases s r0 k0 line (Forall2_length _ _ _ Hmask))
      as [[_ Hsame']|[(_ & _ & _ & hidden & _ & Hhit)|(_ & _ & _ & Hmiss)]].
    + rewrite Hsame' in Hr1. by injection Hr1 as <-.
    + rewrite Hhit in Hr1. injection Hr1 as <-. simpl.
      by apply prefix_app_r.
    + rewrite Hmiss in Hr1. injection Hr1 as <-. simpl.
      by apply prefix_app_r.
Qed.

Lemma guessed_letters_grow_witness :
  ["g"] `prefix_of` ["g"; "x"; "d"].
Proof.
  refine (proj2 (guessed_letters_grow ["garden"] (λ _, 0))
            (guessing_game ["garden"] (λ _, 0) ["g"]).1 ["x"; "G"; "d"]
            (Round "garden" (letters "garden") ["g"]
               ["g"; "_ "; "_ "; "_ "; "_ "; "_ "])
            (Round "garden" (letters "garden") ["g"; "x"; "d"]
               ["g"; "_ "; "_ "; "d"; "_ "; "_ "]) _ _ _ _).
  - by exists ["g"].
  - vm_compute. reflexivity.
  - vm_compute. reflexivity.
  - vm_compute. reflexivity.
Defined.

Section score_facts.
Implicit Types (s : Z) (r : round) (k : nat) (evs : list event).

Lemma count_events_app p evs evs' :
  count_events p (evs ++ evs') = (count_events p evs + count_events p evs')%Z.
Proof. unfold count_events. rewrite filter_app, length_app. lia. Qed.

Lemma score_path_last_app s0 s1 evs evs' :
  last (score_path s0 evs) = Some s1 →
  last (score_path s0 (evs ++ evs')) = last (score_path s1 evs').
Proof.
  unfold score_path. rewrite omap_app.
  generalize (omap (λ e, match e with
                         | PrintRight s | PrintSorry s => Some s
                         | _ => None
                         end) evs) as la.
  generalize (omap (λ e, match e with
                         | PrintRight s | PrintSorry s => Some s
                         | _ => None
                         end) evs') as lb.
  intros [|y lb] la Hla.
  - by rewrite app_nil_r.
  - by rewrite app_comm_cons, last_app_cons, last_cons_cons.
Qed.

(** The code from the loop head to the next input announces no score. *)
Lemma inner_head_quiet s r k :
  count_events is_hit (inner_head s r k).2 = 0%Z
  ∧ count_events is_miss (inner_head s r k).2 = 0%Z
  ∧ ∀ s0, score_path s0 (inner_head s r k).2 = [s0].
Proof.
  unfold inner_head, post_round.
  destruct (loop_guard s r); [done|].
  destruct (decide (hidden_word r = word_letters r)), (decide (0 < s)%Z); done.
Qed.

(** A step that announces no score leaves it as it was. *)
Ltac quiet_step :=
  cbn zeta; split; [unfold count_events; simpl; lia|reflexivity].

Lemma guess_step_score s r k line :
  let res := guess_step s r k line in
  score_of res.1
    = (s + count_events is_hit res.2 - count_events is_miss res.2)%Z
  ∧ last (score_path s res.2) = Some (score_of res.1).
Proof.
  destruct (inner_head_quiet s r k) as (Hh & Hm & Hq).
  unfold guess_step.
  destruct (decide (lower line = "!")); [by quiet_step|].
  destruct (negb _ || negb _).
  { cbn zeta. rewrite emit_fst, emit_snd, inner_head_score.
    rewrite !count_events_app, Hh, Hm.
    rewrite (score_path_last_app s s) by done. rewrite Hq.
    split; [unfold count_events; simpl; lia|done]. }
  destruct (decide (lower line ∈ guessed_letters r)).
  { cbn zeta. rewrite emit_fst, emit_snd, inner_head_score.
    rewrite !count_events_app, Hh, Hm.
    rewrite (score_path_last_app s s) by done. rewrite Hq.
    split; [unfold count_events; simpl; lia|done]. }
  destruct (decide (lower line ∈ word_letters r)).
  - destruct (reveal _ _ _) as [hidden|]; [|by quiet_step]. cbn zeta.
    rewrite emit_fst, emit_snd, inner_head_score, !count_events_app.
    destruct (inner_head_quiet (s + 1)
                (Round (word r) (word_letters r)
                   (guessed_letters r ++ [lower line]) hidden) k)
      as (-> & -> & Hq').
    rewrite (score_path_last_app s (s + 1)) by done. rewrite Hq'.
    split; [|done]. unfold count_events. simpl. lia.
  - cbn zeta.
    rewrite emit_fst, emit_snd, inner_head_score, !count_events_app.
    destruct (inner_head_quiet (s - 1)
                (Round (word r) (word_letters r)
                   (guessed_letters r ++ [lower line]) (hidden_word r)) k)
      as (-> & -> & Hq').
    rewrite (score_path_last_app s (s - 1)) by done. rewrite Hq'.
    split; [|done]. unfold count_events. simpl. lia.
Qed.

Variable words : list string.
Variable rand : nat → nat.

Lemma step_score c line :
  let res := step words rand c line in
  score_of res.1
    = (score_of c + count_events is_hit res.2 - count_events is_miss res.2)%Z
  ∧ last (score_path (score_of c) res.2) = Some (score_of res.1).
Proof.
  destruct c as [s r k|s r k|e s r k|e s]; simpl.
  - apply guess_step_score.
  - unfold again_step, outer_head.
    destruct (decide (lower line ≠ "y")); [by quiet_step|].
    destruct (decide (0 < s)%Z); [|by quiet_step].
    destruct (random_choice (rand k) words) as [w|]; [|by quiet_step].
    rewrite inner_head_score.
    destruct (inner_head_quiet s (new_round w) (S k)) as (-> & -> & ->).
    split; [lia|done].
  - by quiet_step.
  - by quiet_step.
Qed.

Lemma run_cons c line rest :
  run words rand c (line :: rest) =
    emit (step words rand c line).2 (run words rand (step words rand c line).1 rest).
Proof. simpl. by destruct (step words rand c line). Qed.

Lemma run_score c inputs :
  let res := run words rand c inputs in
  score_of res.1
    = (score_of c + count_events is_hit res.2 - count_events is_miss res.2)%Z
  ∧ last (score_path (score_of c) res.2) = Some (score_of res.1).
Proof.
  revert c. induction inputs as [|line rest IH]; intros c.
  - simpl. split; [unfold count_events; simpl; lia|done].
  - cbn zeta. rewrite run_cons, emit_fst, emit_snd.
    destruct (step_score c line) as [Hs Hl].
    destruct (IH (step words rand c line).1) as [Hs' Hl'].
    cbn zeta in *. rewrite !count_events_app.
    rewrite (score_path_last_app _ _ _ _ Hl). split; [lia|done].
Qed.
End score_facts.

(** X9: at every moment of a session the score is 5 plus the number of
    right guesses so far minus the number of wrong ones, and it is the
    score the program announced last. *)
Theorem score_accounting (words : list string) (rand : nat → nat)
    (inputs : list string) :
  let res := guessing_game words rand inputs in
  score_of res.1
    = (5 + count_events is_hit res.2 - count_events is_miss res.2)%Z
  ∧ last (score_path 5 res.2) = Some (score_of res.1).
Proof.
  cbn zeta. unfold guessing_game. rewrite emit_fst, emit_snd.
  assert (Hstart : score_of (start words rand).1 = 5%Z
                   ∧ count_events is_hit (start words rand).2 = 0%Z
                   ∧ count_events is_miss (start words rand).2 = 0%Z
                   ∧ score_path 5 (start words rand).2 = [5%Z]).
  { unfold start, outer_head. rewrite decide_True by done.
    destruct (random_choice (rand 0) words) as [w|]; [|done].
    rewrite emit_fst, emit_snd, inner_head_score.
    destruct (inner_head_quiet 5 (new_round w) 1) as (Hh & Hm & Hq).
    rewrite !count_events_app, Hh, Hm.
    split_and!; [done..|]. unfold score_path in *. simpl. apply (Hq 5%Z). }
  destruct Hstart as (H5 & Hh & Hm & Hq).
  destruct (run_score words rand (start words rand).1 inputs) as [Hs Hl].
  cbn zeta in *. rewrite !count_events_app, Hh, Hm.
  rewrite (score_path_last_app 5 5) by (by rewrite Hq).
  rewrite H5 in Hs, Hl. split; [lia|done].
Qed.

Section winning.
Variable words : list string.
Variable rand : nat → nat.

(** Typing the letters that are still missing, each once, solves the
    round: every one of them is a hit, and the last one ends the loop. *)
Lemma solve_round (todo : list string) : ∀ (s : Z) (r : round) (k : nat),
  (0 < s)%Z →
  hidden_word r = mask_of (word_letters r) (guessed_letters r) →
  (∀ w, w ∈ word_letters r → w ≠ "_ ") →
  Forall valid_guess (word_letters r) →
  hidden_word r ≠ word_letters r →
  NoDup todo →
  (∀ x, x ∈ todo ↔ x ∈ word_letters r ∧ x ∉ guessed_letters r) →
  ∃ r', (run words rand (NeedGuess s r k) todo).1
          = NeedAgain (s + Z.of_nat (length todo)) r' k
        ∧ word r' = word r
        ∧ hidden_word r' = word_letters r'.
Proof.
  induction todo as [|g rest IH];
    intros s r k Hs Hmask Hletters Hvalid Hopen Hnd Htodo.
  - exfalso. apply Hopen. rewrite Hmask. apply mask_of_solved; [done|].
    intros w Hw. destruct (decide (w ∈ guessed_letters r)) as [|Hout]; [done|].
    exfalso. apply (not_elem_of_nil w). apply Htodo. done.
  - apply NoDup_cons in Hnd as [Hg Hnd].
    destruct (proj1 (Htodo g) (list_elem_of_here _ _)) as [Hin Hnew].
    rewrite Forall_forall in Hvalid.
    destruct (Hvalid g Hin) as (Hone & Halpha & Hlow).
    destruct (reveal_Some (word_letters r) (hidden_word r) g)
      as (hidden & Hreveal & _ & Hlook);
      [by rewrite Hmask, mask_of_length|].
    assert (Hmask' : hidden = mask_of (word_letters r) (guessed_letters r ++ [g])).
    { apply mask_of_hit. intros i. by rewrite Hlook, Hmask. }
    assert (Hstep : (step words rand (NeedGuess s r k) g).1
                    = (inner_head (s + 1)
                         (Round (word r) (word_letters r)
                            (guessed_letters r ++ [g]) hidden) k).1).
    { simpl. unfold guess_step. rewrite Hlow.
      rewrite decide_False by (intros ->; done).
      rewrite Hone, Halpha. cbn [Nat.eqb negb orb].
      rewrite (decide_False (P:=g ∈ guessed_letters r)) by done.
      rewrite decide_True by done. by rewrite Hreveal. }
    rewrite run_fst_cons, Hstep. unfold inner_head, post_round.
    destruct (decide (hidden = word_letters r)) as [Hsolved|Hnot].
    + assert (rest = []) as ->.
      { destruct rest as [|x rest]; [done|]. exfalso.
        destruct (proj1 (Htodo x)) as [Hx Hxnew];
          [apply list_elem_of_further, list_elem_of_here|].
        rewrite Hmask' in Hsolved.
        pose proof (proj1 (mask_of_solved _ _ Hletters) Hsolved x Hx) as Hxin.
        apply elem_of_app in Hxin as [?|Hxg]; [done|].
        apply list_elem_of_singleton in Hxg as ->.
        apply Hg. apply list_elem_of_here. }
      replace (loop_guard _ _) with false
        by (symmetry; apply loop_guard_false; by left).
      cbn [hidden_word word_letters].
      rewrite (decide_True (P:=hidden = word_letters r)) by done.
      rewrite (decide_True (P:=(0 < s + 1)%Z)) by lia.
      exists (Round (word r) (word_letters r) (guessed_letters r ++ [g]) hidden).
      split_and!; [simpl; f_equal; lia|done..].
    + replace (loop_guard _ _) with true
        by (symmetry; apply loop_guard_true; split; [done|lia]).
      cbn [fst].
      destruct (IH (s + 1)%Z
                  (Round (word r) (word_letters r)
                     (guessed_letters r ++ [g]) hidden) k)
        as (r' & Hrun & Hword & Hhidden).
      * lia.
      * done.
      * done.
      * by apply Forall_forall.
      * done.
      * done.
      * intros x. cbn [word_letters guessed_letters].
        rewrite not_elem_of_app, list_elem_of_singleton. split.
        -- intros Hx. destruct (proj1 (Htodo x)) as [??];
             [by apply list_elem_of_further|].
           split_and!; [done..|]. intros ->. done.
        -- intros (Hx & Hxnew & Hxg).
           pose proof (proj2 (Htodo x) (conj Hx Hxnew)) as Hin'.
           apply elem_of_cons in Hin' as [Heq|Hrest]; [congruence|done].
      * exists r'. rewrite Hrun. split_and!; [|done..].
        f_equal. cbn [length]. lia.
Qed.

(** X10: a round on a word of lower-case letters can always be won: from
    any configuration in which the program waits for a guess, typing the
    letters of the word that are still missing, each once, ends the round
    solved, at the continuation prompt, with one point more for each of
    them. *)
Theorem round_is_winnable (s : Z) (r : round) (k : nat) :
  reachable words rand (NeedGuess s r k) →
  Forall valid_guess (word_letters r) →
  ∃ r', (run words rand (NeedGuess s r k) (missing_letters r)).1
          = NeedAgain (s + Z.of_nat (length (missing_letters r))) r' k
        ∧ word r' = word r
        ∧ hidden_word r' = word_letters r'.
Proof.
  intros Hc Hvalid.
  pose proof (reachable_inv words rand _ Hc) as (_ & Hs & _ & Hopen).
  pose proof (reachable_round_facts words rand _ r Hc eq_refl)
    as (_ & Hletters & _ & _ & Hmask).
  apply solve_round; try done.
  - rewrite Hletters. apply letters_not_placeholder.
  - apply NoDup_filter, NoDup_remove_dups.
  - intros x. unfold missing_letters.
    rewrite list_elem_of_filter, elem_of_remove_dups. tauto.
Qed.
End winning.

Lemma round_is_winnable_witness :
  ∃ r', (run ["garden"] (λ _, 0)
           (NeedGuess 5 (Round "garden" (letters "garden") ["g"; "x"]
                           ["g"; "_ "; "_ "; "_ "; "_ "; "_ "]) 1)
           ["a"; "r"; "d"; "e"; "n"]).1
        = NeedAgain 10 r' 1.
Proof.
  destruct (round_is_winnable ["garden"] (λ _, 0) 5
              (Round "garden" (letters "garden") ["g"; "x"]
                 ["g"; "_ "; "_ "; "_ "; "_ "; "_ "]) 1)
    as (r' & Hrun & _).
  - exists ["g"; "x"]. vm_compute. reflexivity.
  - repeat (constructor; [by split_and!|]). constructor.
  - by exists r'.
Defined.

(** * Properties of the rest of the program *)

Section distinct_facts.
Implicit Types (l : list string).

Lemma remove_dups_length_le l : length (remove_dups l) ≤ length l.
Proof. induction l as [|x l IH]; simpl; [done|]. case_decide; simpl; lia. Qed.

Lemma remove_dups_length_eq l : length (remove_dups l) = length l ↔ NoDup l.
Proof.
  induction l as [|x l IH]; simpl.
  - split; [intros _; apply NoDup_nil_2|done].
  - pose proof (remove_dups_length_le l). rewrite NoDup_cons.
    case_decide as Hx; simpl.
    + split; [lia|]. by intros [? _].
    + split.
      * intros Hlen. split; [done|]. apply IH. lia.
      * intros [_ Hnd]. apply IH in Hnd. lia.
Qed.

Lemma remove_dups_length_pos l : l ≠ [] → 0 < length (remove_dups l).
Proof.
  intros Hl. destruct (remove_dups l) as [|x l'] eqn:Hrd; simpl; [|lia].
  destruct l as [|y l]; [done|].
  assert (Hy : y ∈ remove_dups (y :: l))
    by (rewrite elem_of_remove_dups; apply list_elem_of_here).
  rewrite Hrd in Hy. by apply elem_of_nil in Hy.
Qed.

Lemma len_zero (str : string) : len str = 0 ↔ str = "".
Proof. by destruct str. Qed.
End distinct_facts.

Section toolkit_facts.
Context `{T : Toolkit} `{S : SetOrder}.
Implicit Types (tokens raw : list string).

Lemma filter_tokens_elem raw t :
  t ∈ filter_tokens raw ↔
    t ∈ raw ∧ isalpha t = true ∧ 5 < len t ∧ t ∉ stopWords.
Proof. unfold filter_tokens. rewrite !list_elem_of_filter. tauto. Qed.


Lemma tag_lemmas_words tokens :
  (tag_lemmas tokens).*1 = set_list (lemmatize <$> tokens).
Proof. unfold tag_lemmas. apply pos_tag_words. Qed.

Lemma set_list_length l : length (set_list l) = length (remove_dups l).
Proof.
  apply Permutation_length, NoDup_Permutation.
  - apply set_list_NoDup.
  - apply NoDup_remove_dups.
  - intros x. by rewrite set_list_elem, elem_of_remove_dups.
Qed.

Lemma tag_lemmas_length tokens :
  length (tag_lemmas tokens) = length (remove_dups (lemmatize <$> tokens)).
Proof.
  rewrite <-set_list_length, <-tag_lemmas_words. by rewrite length_fmap.
Qed.


(** What a run of [preprocess] that returns has gone through. *)
Lemma preprocess_inv raw_text out tokens nouns :
  preprocess raw_text = (out, inr (tokens, nouns)) →
  ∃ text, raw_text = Some text
          ∧ word_tokenize (lower text) ≠ []
          ∧ tokens = filter_tokens (word_tokenize (lower text))
          ∧ nouns = extract_nouns (tag_lemmas tokens)
          ∧ 20 ≤ length (tag_lemmas tokens).
Proof.
  intros Hpre. unfold preprocess, lexi_div in Hpre.
  destruct raw_text as [text|]; [|done]. exists text. cbn zeta in Hpre.
  destruct (decide (length (word_tokenize (lower text)) = 0)) as [|Hne];
    [done|]. simpl in Hpre.
  unfold report_first_20 in Hpre. rewrite report_loop_seq in Hpre by lia.
  destruct (decide (0 + 20 ≤ length
              (tag_lemmas (filter_tokens (word_tokenize (lower text))))));
    [|done].
  injection Hpre as _ <- <-. split_and!; [done| |done..|lia].
  intros Hnil. by rewrite Hnil in Hne.
Qed.
End toolkit_facts.

(** X11: [lexi_div] fails with ZeroDivisionError exactly when the
    tokenizer finds no token; otherwise it returns the tokens of the
    lower-cased text, and the two numbers whose quotient it prints satisfy
    0 < unique <= total, with equality exactly when no token repeats. *)
Theorem lexi_div_diversity (T : Toolkit) (text : string) :
  let tokens := word_tokenize (lower text) in
  (tokens = [] → lexi_div (Some text) = ([], inl ZeroDivisionError))
  ∧ (tokens ≠ [] →
     ∃ unique total,
       lexi_div (Some text)
         = ([MsgLexicalDiversity unique total], inr tokens)
       ∧ 0 < unique ∧ unique ≤ total
       ∧ (unique = total ↔ NoDup tokens)).
Proof.
  intros tokens. unfold lexi_div. fold tokens. split.
  - intros ->. done.
  - intros Hne. rewrite decide_False by (by intros ?%nil_length_inv).
    eexists _, _. split_and!; [done| | |].
    + by apply remove_dups_length_pos.
    + apply remove_dups_length_le.
    + apply remove_dups_length_eq.
Qed.

Lemma lexi_div_diversity_witness :
  ∃ unique total,
    lexi_div (T:=plain_toolkit) (Some "Tree tree bird")
      = ([MsgLexicalDiversity unique total], inr ["tree"; "tree"; "bird"])
    ∧ 0 < unique ∧ unique ≤ total.
Proof.
  destruct (proj2 (lexi_div_diversity plain_toolkit "Tree tree bird"))
    as (unique & total & Hlexi & Hpos & Hle & _).
  - vm_compute. discriminate.
  - by exists unique, total.
Defined.



(** X13: on a text with at least one token, [preprocess] raises IndexError
    exactly when the tokens it keeps have fewer than 20 distinct
    lemmas. *)
Theorem preprocess_needs_20_lemmas (T : Toolkit) (S : SetOrder) (text : string) :
  word_tokenize (lower text) ≠ [] →
  (preprocess (Some text)).2 = inl (Uncaught IndexError) ↔
    length (remove_dups
              (lemmatize <$> filter_tokens (word_tokenize (lower text)))) < 20.
Proof.
  intros Hne. unfold preprocess, lexi_div. cbn zeta.
  rewrite decide_False by (by intros ?%nil_length_inv). simpl.
  unfold report_first_20. rewrite report_loop_seq by lia.
  rewrite <-tag_lemmas_length.
  destruct (decide (0 + 20 ≤ length
              (tag_lemmas (filter_tokens (word_tokenize (lower text))))));
    simpl; split; (done || lia).
Qed.

Lemma preprocess_needs_20_lemmas_witness :
  (preprocess (T:=plain_toolkit) (S:=first_seen_order)
     (Some "gardens forests gardens")).2
  = inl (Uncaught IndexError).
Proof.
  apply (preprocess_needs_20_lemmas plain_toolkit first_seen_order
           "gardens forests gardens").
  - vm_compute. discriminate.
  - vm_compute. lia.
Defined.

(** X14: [file_check] returns a text exactly when it is given one
    argument besides the program name and the file of that name holds that
    text, which is not empty; it returns None, without exiting, exactly
    when that file is missing. *)
Theorem file_check_returns (argv : list string) (fs : string → file_state) :
  (∀ text, (file_check argv fs).2 = inr (Some text) ↔
     ∃ prog path, argv = [prog; path] ∧ fs path = Text text ∧ text ≠ "")
  ∧ ((file_check argv fs).2 = inr None ↔
     ∃ prog path, argv = [prog; path] ∧ fs path = Missing).
Proof.
  unfold file_check.
  destruct argv as [|prog [|path [|extra argv]]];
    (case_decide as Hargs; simpl in Hargs;
     [try (by destruct Hargs)|try lia]).
  1-2,4: split; [intros text|]; (split; [done|intros (? & ? & ? & _); done]).
  simpl. split; [intros text|]; split.
  - destruct (fs path) as [| |raw_text] eqn:Hfs; simpl; try done.
    destruct (decide (len raw_text = 0)) as [|Hlen]; simpl; [done|].
    intros [= ->]. exists prog, path. split_and!; [done..|].
    intros ->. done.
  - intros (? & ? & [= <- <-] & -> & Hne).
    rewrite decide_False; [done|]. by rewrite len_zero.
  - destruct (fs path) as [| |raw_text] eqn:Hfs; simpl.
    + intros _. by exists prog, path.
    + done.
    + by destruct (decide (len raw_text = 0)).
  - intros (? & ? & [= <- <-] & ->). done.
Qed.

Lemma file_check_returns_witness :
  (file_check ["main.py"; "sample.txt"] sample_fs).2 = inr (Some sample_text)
  ∧ (file_check ["main.py"; "nowhere.txt"] sample_fs).2 = inr None.
Proof.
  split.
  - apply (proj1 (file_check_returns ["main.py"; "sample.txt"] sample_fs)).
    exists "main.py", "sample.txt". split_and!; [done..|discriminate].
  - apply (proj2 (file_check_returns ["main.py"; "nowhere.txt"] sample_fs)).
    by exists "main.py", "nowhere.txt".
Defined.

(** X15: when the file is missing the program does not stop at the
    message of [file_check]: it goes on with None for the text and fails
    in [lexi_div] with AttributeError, before any other output. *)
Theorem main_missing_file (T : Toolkit) (S : SetOrder) (A : ArgSort)
    (prog path : string) (fs : string → file_state)
    (rand : nat → nat) (inputs : list string) :
  fs path = Missing →
  main [prog; path] fs rand inputs = ([MsgFileNotFound], inl AttributeError).
Proof.
  intros Hfs. unfold main, file_check. simpl. by rewrite Hfs.
Qed.

Lemma main_missing_file_witness :
  main (T:=plain_toolkit) (S:=first_seen_order) (A:=stable_argsort)
    ["main.py"; "nowhere.txt"] sample_fs (λ _, 0) ["g"]
  = ([MsgFileNotFound], inl AttributeError).
Proof.
  apply (main_missing_file plain_toolkit first_seen_order stable_argsort).
  reflexivity.
Defined.

Section main_facts.
Context `{T : Toolkit} `{S : SetOrder} `{A : ArgSort}.

Lemma io_bind_inr {X Y} (m : io X) (f : X → io Y) out (y : Y) :
  m ≫= f = (out, inr y) →
  ∃ out1 x out2, m = (out1, inr x) ∧ f x = (out2, inr y) ∧ out = out1 ++ out2.
Proof.
  unfold mbind, io_bind. destruct m as [out1 [e|x]]; [done|].
  destruct (f x) as [out2 res] eqn:Hf. intros [= <- ->].
  by exists out1, x, out2.
Qed.

Lemma make_dict_elem tokens nouns words w :
  make_dict tokens nouns = Some words → w ∈ words → w ∈ nouns.
Proof.
  intros Hmake Hw.
  destruct (make_dict_ranked tokens nouns) as (l & _ & Hout & Hperm).
  assert (words = take 50 (keys l)) as -> by congruence.
  apply elem_of_take in Hw as (i & Hi & _).
  apply list_elem_of_lookup_2 in Hi. rewrite Hperm in Hi.
  by rewrite elem_of_remove_dups in Hi.
Qed.

Lemma file_check_text argv fs out text :
  file_check argv fs = (out, inr (Some text)) →
  ∃ prog path, argv = [prog; path] ∧ fs path = Text text ∧ text ≠ "".
Proof.
  unfold file_check. case_decide as Hargs; [done|].
  destruct argv as [|prog [|path [|extra argv]]]; simpl in Hargs; try lia.
  simpl. destruct (fs path) as [| |raw_text] eqn:Hfs; try done.
  destruct (decide (len raw_text = 0)) as [|Hlen]; [done|].
  intros [= _ ->]. exists prog, path. split_and!; [done..|].
  intros ->. done.
Qed.

(** What a run of [main] that has not failed has gone through. *)
Lemma main_inv argv fs rand inputs out c :
  main argv fs rand inputs = (out, inr c) →
  ∃ prog path text tokens nouns words,
    argv = [prog; path] ∧ fs path = Text text ∧ text ≠ ""
    ∧ tokens = filter_tokens (word_tokenize (lower text))
    ∧ nouns = extract_nouns (tag_lemmas tokens)
    ∧ 20 ≤ length (tag_lemmas tokens)
    ∧ make_dict tokens nouns = Some words
    ∧ c = (guessing_game words rand inputs).1.
Proof.
  unfold main. intros Hmain.
  apply io_bind_inr in Hmain as (out1 & raw_text & out' & Hfile & Hmain & _).
  apply io_bind_inr in Hmain
    as (out2 & [tokens nouns] & out'' & Hpre & Hmain & _).
  apply io_bind_inr in Hmain as (out3 & words & out4 & Hmake & Hgame & _).
  destruct (preprocess_inv _ _ _ _ Hpre)
    as (text & -> & _ & Htokens & Hnouns & Hlen).
  destruct (file_check_text _ _ _ _ Hfile) as (prog & path & ? & ? & ?).
  exists prog, path, text, tokens, nouns, words.
  split_and!; [done..| |].
  - unfold make_dict_io in Hmake.
    destruct (make_dict tokens nouns); by simplify_eq.
  - unfold guessing_game_io in Hgame.
    destruct (guessing_game words rand inputs) as [c' evs].
    destruct c'; by simplify_eq/=.
Qed.
End main_facts.

(** X16: every secret word the program ever plays comes from the file:
    whenever [main] has not failed and is in a round, the secret word of
    the round is the lemma of a token of the lower-cased text that is
    alphabetic, longer than 5 characters and no stop word. *)
Theorem main_secret_word_origin (T : Toolkit) (S : SetOrder) (A : ArgSort)
    (argv : list string) (fs : string → file_state)
    (rand : nat → nat) (inputs : list string)
    (out : list message) (c : config) (r : round) :
  main argv fs rand inputs = (out, inr c) →
  round_of c = Some r →
  ∃ prog path text token,
    argv = [prog; path] ∧ fs path = Text text
    ∧ token ∈ word_tokenize (lower text)
    ∧ isalpha token = true ∧ 5 < len token ∧ (token ∉ stopWords)
    ∧ lemmatize token = word r.
Proof.
  intros Hmain Hr.
  destruct (main_inv _ _ _ _ _ _ Hmain)
    as (prog & path & text & tokens & nouns & words
        & -> & Hfs & _ & Htokens & Hnouns & _ & Hmake & ->).
  assert (Hword : word r ∈ words).
  { eapply reachable_round_facts; [|done]. by exists inputs. }
  pose proof (make_dict_elem _ _ _ _ Hmake Hword) as Hnoun.
  rewrite Hnouns in Hnoun. unfold extract_nouns in Hnoun.
  apply list_elem_of_fmap in Hnoun as ([noun tag] & Hfst & Hentry).
  apply list_elem_of_filter in Hentry as [_ Hentry]. simpl in Hfst.
  assert (Hin : noun ∈ (tag_lemmas tokens).*1)
    by (apply list_elem_of_fmap; by exists (noun, tag)).
  rewrite tag_lemmas_words, set_list_elem in Hin.
  apply list_elem_of_fmap in Hin as (token & Hlemma & Htoken).
  rewrite Htokens in Htoken.
  apply filter_tokens_elem in Htoken as (? & ? & ? & ?).
  exists prog, path, text, token. split_and!; [done..|]. congruence.
Qed.

Lemma main_secret_word_origin_witness :
  ∃ prog path text token,
    ["main.py"; "sample.txt"] = [prog; path] ∧ sample_fs path = Text text
    ∧ token ∈ word_tokenize (Toolkit:=plain_toolkit) (lower text)
    ∧ isalpha token = true ∧ 5 < len token
    ∧ (token ∉ stopWords (Toolkit:=plain_toolkit))
    ∧ lemmatize (Toolkit:=plain_toolkit) token = "hunters".
Proof.
  destruct (main (T:=plain_toolkit) (S:=first_seen_order) (A:=stable_argsort)
              ["main.py"; "sample.txt"] sample_fs (λ _, 3) ["g"; "!"])
    as [out [e|c]] eqn:Hmain; [exfalso; vm_compute in Hmain; discriminate|].
  apply (main_secret_word_origin plain_toolkit first_seen_order stable_argsort
           ["main.py"; "sample.txt"] sample_fs (λ _, 3) ["g"; "!"] out c
           (Round "hunters" (letters "hunters") ["g"]
              (hidden_word (new_round "hunters")))).
  - done.
  - vm_compute in Hmain. by injection Hmain as _ <-.
Defined.
